(** * LedgerSync record stores: a shallow embedding

    The three JSONL stores of LedgerSync ([src/ledger.ts], [src/promises.ts],
    [src/reports.ts]), the id-prefix lookup of the command line front end and
    the conflict detection algorithm of [docs/ARCHITECTURE.md], embedded as
    Rocq functions over an explicit file-system state.

    Files are texts (lists of characters); a store operation is a function
    from the file-system state to an outcome (a returned value or a thrown
    error) and the state it leaves behind; the [root] argument of the code
    is the directory whose state is threaded.  What the code obtains from its
    environment -- [JSON.stringify]/[JSON.parse], the compiled ajv schemas,
    [uuidv4()] and [new Date().toISOString()] -- is taken as an argument. *)

From stdpp Require Import list strings gmap.
From Stdlib Require Import Ascii ZArith QArith_base DecimalString Lia.

Local Close Scope Q_scope.
Local Open Scope nat_scope.
Local Open Scope list_scope.

(** ** Texts and the JavaScript string primitives the stores use *)

Module Text.

(** File contents and lines: sequences of characters. *)
Definition text := list ascii.

Definition of_string (s : string) : text := String.list_ascii_of_string s.

Definition nl : ascii := "010"%char.

(** White space of [String.prototype.trim], within the ASCII range:
    TAB, LF, VT, FF, CR and SPACE. *)
Definition is_ws (c : ascii) : bool := Ascii.is_space c.

Fixpoint trimStart (s : text) : text :=
  match s with
  | [] => []
  | c :: s' => if is_ws c then trimStart s' else s
  end.

Definition trimEnd (s : text) : text := rev (trimStart (rev s)).

(** [s.trim()] *)
Definition trim (s : text) : text := trimEnd (trimStart s).

(** [s.split('\n')]: never empty, [''.split('\n')] is [['']]. *)
Fixpoint split_nl (s : text) : list text :=
  match s with
  | [] => [[]]
  | c :: s' =>
      if Ascii.eqb c nl then [] :: split_nl s'
      else match split_nl s' with
           | [] => [[c]]
           | l :: ls => (c :: l) :: ls
           end
  end.

(** Truthiness of a string: the empty string is falsy. *)
Definition truthy (s : text) : bool :=
  match s with [] => false | _ :: _ => true end.

(** [content.trim().split('\n').filter(line => line.trim())] *)
Definition nonblank_lines (content : text) : list text :=
  List.filter (fun line => truthy (trim line)) (split_nl (trim content)).

(** [lines.join('\n')] *)
Fixpoint join_nl (lines : list text) : text :=
  match lines with
  | [] => []
  | [l] => l
  | l :: ls => l ++ nl :: join_nl ls
  end.

(** The lines of a file as an editor numbers them: the text cut at every
    line feed ([split_nl]), line [k] (1-based) being element [k - 1]. *)
Definition file_line (content : text) (k : nat) : option text :=
  match k with
  | 0 => None
  | S i => split_nl content !! i
  end.

(** A line as [JSON.stringify] writes one for an object: not empty, on one
    line, no white space at either end. *)
Definition one_line (l : text) : bool :=
  forallb (fun c => negb (Ascii.eqb c nl)) l.

Definition clean_line (l : text) : bool :=
  one_line l
  && match l with [] => false | c :: _ => negb (is_ws c) end
  && match rev l with [] => false | c :: _ => negb (is_ws c) end.

(** Every line followed by a line feed: what a sequence of appends leaves
    in a file. *)
Definition unlines (lines : list text) : text :=
  concat (map (fun l => l ++ [nl]) lines).

End Text.
Import Text.

(** [Array.prototype.slice(start)] for an integral [start]: a negative
    start counts from the end, and both ends are clamped. *)
Definition js_slice_from {A} (start : Z) (l : list A) : list A :=
  let len := Z.of_nat (length l) in
  let k := if (start <? 0)%Z then Z.max (len + start) 0 else Z.min start len in
  drop (Z.to_nat k) l.

(** [Array.prototype.findIndex]; [None] stands for [-1]. *)
Fixpoint findIndex {A} (f : A -> bool) (l : list A) : option nat :=
  match l with
  | [] => None
  | x :: l' => if f x then Some 0 else option_map S (findIndex f l')
  end.

(** [String.prototype.includes] *)
Fixpoint includes (s sub : string) : bool :=
  String.prefix sub s
  || match s with
     | EmptyString => false
     | String _ s' => includes s' sub
     end.

(** [String.prototype.startsWith] *)
Definition startsWith (s pre : string) : bool := String.prefix pre s.

(** ** Data model

    [src/types.ts] is not among the sources; the records follow the
    interfaces documented in [docs/ARCHITECTURE.md] and the object literals
    built by [createPromise], [createWorkReport] and [createVerdictReport].
    An optional property ([x?: T], or a property set to [undefined], which
    [JSON.stringify] omits) is an [option]. *)

Module Entry.
Inductive ArtifactAction := created | modified | deleted | read.
Record Artifact := { path : string; artifactAction : ArtifactAction }.
Record Agent := { name : string }.
Record Action := { summary : string }.
Record Reasoning := { intent : string; confidence : option Q }.
Record t := {
  id : string;
  timestamp : string;
  agent : Agent;
  action : Action;
  reasoning : Reasoning;
  artifacts : list Artifact;
}.
End Entry.
Abbreviation LedgerEntry := Entry.t.

Inductive PromiseStatus := active | fulfilled | broken | withdrawn | superseded.
Inductive PromiseType := will_do | will_not_do | will_maintain | will_provide.
Inductive PromiseScope := session_scope | project_scope | permanent_scope.

Module Promise.
Record Promiser := { agent : string; session : option string }.
(** [to] is the [agent] property of the promisee (['*']: anyone). *)
Record Promisee := { to : string; scope : option PromiseScope }.
Record Body := {
  type : PromiseType;
  summary : string;
  description : option string;
  conditions : option (list string);
}.
Record Context := {
  relatedEntries : option (list string);
  artifacts : option (list string);
}.
Record t := {
  id : string;
  timestamp : string;
  promiser : Promiser;
  promisee : Promisee;
  promise : Body;
  context : option Context;
  status : PromiseStatus;
  tags : option (list string);
  resolvedBy : option string;
  resolvedAt : option string;
  supersededBy : option string;
}.
End Promise.
Abbreviation PromiseEntry := Promise.t.

Inductive ReporterRole := actor | witness | human.
Inductive VerdictStatus := verdict_fulfilled | verdict_partial | verdict_broken.

Module Report.
Record Reporter := {
  agent : string;
  role : ReporterRole;
  session : option string;
}.
Record Body := {
  workCompleted : string;
  remaining : option (list string);
  blockers : option (list string);
  confidenceInCompletion : Q;
}.
Record Verdict := { status : VerdictStatus; reasoning : string }.
Record t := {
  id : string;
  timestamp : string;
  reporter : Reporter;
  promiseId : string;
  report : Body;
  verdict : option Verdict;
  relatedEntries : option (list string);
  tags : option (list string);
}.
End Report.
Abbreviation WorkReport := Report.t.

(** ** The environment of the stores *)

(** [JSON.stringify] and [JSON.parse] at a record type; [parse] is [None]
    where [JSON.parse] throws a [SyntaxError].  As the unchecked casts of the
    code do ([JSON.parse(line) as LedgerEntry]), a line that parses is taken
    to have the shape of the record type. *)
Class Json (R : Type) := {
  stringify : R -> text;
  parse : text -> option R;
}.

(** A validator compiled by ajv from the JSON schema of a record kind (the
    schema files are not among the sources): the verdict of the validator and
    the [instancePath message] strings of its [errors]. *)
Class Schema (R : Type) := {
  isValid : R -> bool;
  validationErrors : R -> list string;
}.

(** The codec is faithful on a record when the written line reads back as the
    record and has the shape of a serialized JSON object. *)
Definition faithful {R} `{Json R} (r : R) : Prop :=
  parse (stringify r) = Some r /\ clean_line (stringify r) = true.

(** ** File-system state and outcomes *)

(** The [.ledgersync] directory of one root: whether it exists, and the
    contents of its three stream files ([None]: no such file). *)
Record FS := {
  dir : bool;
  ledger_jsonl : option text;
  promises_jsonl : option text;
  reports_jsonl : option text;
}.

Definition set_ledger (c : option text) (st : FS) : FS :=
  {| dir := dir st; ledger_jsonl := c;
     promises_jsonl := promises_jsonl st; reports_jsonl := reports_jsonl st |}.
Definition set_promises (c : option text) (st : FS) : FS :=
  {| dir := dir st; ledger_jsonl := ledger_jsonl st;
     promises_jsonl := c; reports_jsonl := reports_jsonl st |}.
Definition set_reports (c : option text) (st : FS) : FS :=
  {| dir := dir st; ledger_jsonl := ledger_jsonl st;
     promises_jsonl := promises_jsonl st; reports_jsonl := c |}.

(** [fs.mkdirSync(dir, { recursive: true })] *)
Definition mkdir (st : FS) : FS :=
  {| dir := true; ledger_jsonl := ledger_jsonl st;
     promises_jsonl := promises_jsonl st; reports_jsonl := reports_jsonl st |}.

(** The errors the code throws, by the data their messages are built from:
    [Invalid JSON on line N: ...], [Invalid entry|promise|report: errors],
    and the [process.exit(1)] of a command after it printed a message. *)
Inductive Error :=
  | InvalidJson (line : nat)
  | InvalidRecord (what : string) (errors : list string)
  | ProcessExit (code : nat) (message : string).

Inductive Outcome (A : Type) :=
  | Return (a : A)
  | Throw (e : Error).
Arguments Return {A} a.
Arguments Throw {A} e.

(** A store operation: runs on a file-system state, returns or throws, and
    leaves a state behind (the writes done before a throw persist). *)
Definition Fs (A : Type) : Type := FS -> Outcome A * FS.

Definition throw {A} (e : Error) : Fs A := fun st => (Throw e, st).
Definition modify (f : FS -> FS) : Fs unit := fun st => (Return tt, f st).

(** [fs.existsSync] of the [.ledgersync] directory. *)
Definition existsDir : Fs bool := fun st => (Return (dir st), st).

#[export] Instance Fs_ret : MRet Fs := fun A (a : A) st => (Return a, st).
#[export] Instance Fs_bind : MBind Fs := fun A B (k : A -> Fs B) (m : Fs A) st =>
  match m st with
  | (Return a, st') => k a st'
  | (Throw e, st') => (Throw e, st')
  end.

(** ** The JSONL store shared by the three modules

    [readLedger]/[readPromises]/[readReports], the three [readLastN*] and
    the three [append*] are the same code up to the file, the validator and
    the noun of the error message. *)

Section Jsonl.
Context {R : Type} `{Json R} `{Schema R}.
Variable file : FS -> option text.
Variable set_file : option text -> FS -> FS.
Variable what : string.

(** [lines.map((line, index) => { try { return JSON.parse(line) } catch (e)
    { throw new Error(`Invalid JSON on line ${index + 1}: ...`) } })],
    for the lines from position [index] on. *)
Fixpoint parseLines (index : nat) (lines : list text) : Error + list R :=
  match lines with
  | [] => inr []
  | line :: rest =>
      match parse line with
      | None => inl (InvalidJson (index + 1))
      | Some r =>
          match parseLines (S index) rest with
          | inl e => inl e
          | inr rs => inr (r :: rs)
          end
      end
  end.

Definition readRecords : Fs (list R) :=
  fun st =>
    match file st with
    | None => (Return [], st)
    | Some content =>
        match parseLines 0 (nonblank_lines content) with
        | inl e => (Throw e, st)
        | inr rs => (Return rs, st)
        end
    end.

(** [fs.appendFileSync(path, line, 'utf-8')]: creates the file if needed. *)
Definition appendFile (line : text) (st : FS) : FS :=
  set_file (Some (default [] (file st) ++ line)) st.

Definition appendRecord (r : R) : Fs unit :=
  if negb (isValid r)
  then throw (InvalidRecord what (validationErrors r))
  else
    dirExists ← existsDir;
    (if negb dirExists then modify mkdir else mret tt);;
    modify (appendFile (stringify r ++ [nl])).

(** [fs.writeFileSync(path, records.map(r => JSON.stringify(r)).join('\n')
    + '\n', 'utf-8')] *)
Definition rewriteRecords (records : list R) : Fs unit :=
  modify (set_file (Some (join_nl (map stringify records) ++ [nl]))).

End Jsonl.

(** ** Entry store ([src/ledger.ts]) *)

Section EntryStore.
Context `{Json LedgerEntry} `{Schema LedgerEntry}.

Definition isValidEntry (entry : LedgerEntry) : bool := isValid entry.

Definition readLedger : Fs (list LedgerEntry) := readRecords ledger_jsonl.

Definition readLastN (n : Z) : Fs (list LedgerEntry) :=
  entries ← readLedger;
  mret (js_slice_from (- n) entries).

Definition readByAgent (agentName : string) : Fs (list LedgerEntry) :=
  entries ← readLedger;
  mret (List.filter
         (fun e => String.eqb (Entry.name (Entry.agent e)) agentName) entries).

Definition readByFile (filePath : string) : Fs (list LedgerEntry) :=
  entries ← readLedger;
  mret (List.filter
         (fun e => existsb
            (fun a => String.eqb (Entry.path a) filePath
                      || includes (Entry.path a) filePath)
            (Entry.artifacts e))
         entries).

Definition appendEntry (entry : LedgerEntry) : Fs unit :=
  appendRecord ledger_jsonl set_ledger "entry" entry.

End EntryStore.

(** ** Promise store ([src/promises.ts]) *)

#[export] Instance PromiseStatus_eq_dec : EqDecision PromiseStatus.
Proof. solve_decision. Defined.

#[export] Instance VerdictStatus_eq_dec : EqDecision VerdictStatus.
Proof. solve_decision. Defined.

(** [{ ...promise, status, resolvedBy, resolvedAt }]: the two properties
    are set even when [resolvedBy] is [undefined]. *)
Definition resolved (p : PromiseEntry) (status : PromiseStatus)
    (resolvedBy : option string) (now : string) : PromiseEntry :=
  {| Promise.id := Promise.id p;
     Promise.timestamp := Promise.timestamp p;
     Promise.promiser := Promise.promiser p;
     Promise.promisee := Promise.promisee p;
     Promise.promise := Promise.promise p;
     Promise.context := Promise.context p;
     Promise.status := status;
     Promise.tags := Promise.tags p;
     Promise.resolvedBy := resolvedBy;
     Promise.resolvedAt := Some now;
     Promise.supersededBy := Promise.supersededBy p |}.

(** [{ ...promise, status: 'superseded', supersededBy, resolvedAt }] *)
Definition supersededWith (p : PromiseEntry) (newPromiseId now : string)
    : PromiseEntry :=
  {| Promise.id := Promise.id p;
     Promise.timestamp := Promise.timestamp p;
     Promise.promiser := Promise.promiser p;
     Promise.promisee := Promise.promisee p;
     Promise.promise := Promise.promise p;
     Promise.context := Promise.context p;
     Promise.status := superseded;
     Promise.tags := Promise.tags p;
     Promise.resolvedBy := Promise.resolvedBy p;
     Promise.resolvedAt := Some now;
     Promise.supersededBy := Some newPromiseId |}.

(** [p => p.id === promiseId] *)
Definition hasId (promiseId : string) (p : PromiseEntry) : bool :=
  String.eqb (Promise.id p) promiseId.

Section PromiseStore.
Context `{Json PromiseEntry} `{Schema PromiseEntry}.

Definition isValidPromise (promise : PromiseEntry) : bool := isValid promise.

Definition readPromises : Fs (list PromiseEntry) :=
  readRecords promises_jsonl.

Definition readActivePromises : Fs (list PromiseEntry) :=
  promises ← readPromises;
  mret (List.filter (fun p => bool_decide (Promise.status p = active)) promises).

Definition readLastNPromises (n : Z) : Fs (list PromiseEntry) :=
  promises ← readPromises;
  mret (js_slice_from (- n) promises).

Definition getPromiseById (id : string) : Fs (option PromiseEntry) :=
  promises ← readPromises;
  mret (List.find (hasId id) promises).

Definition appendPromise (promise : PromiseEntry) : Fs unit :=
  appendRecord promises_jsonl set_promises "promise" promise.

(** The clock reading [new Date().toISOString()] of the call is [now]. *)
Definition resolvePromise (now : string) (promiseId : string)
    (status : PromiseStatus) (resolvedBy : option string)
    : Fs (option PromiseEntry) :=
  promises ← readPromises;
  match findIndex (hasId promiseId) promises with
  | None => mret None
  | Some index =>
      let promises' :=
        alter (fun p => resolved p status resolvedBy now) index promises in
      rewriteRecords set_promises promises';;
      mret (promises' !! index)
  end.

Definition supersedePromise (now : string) (oldPromiseId newPromiseId : string)
    : Fs (option PromiseEntry) :=
  promises ← readPromises;
  match findIndex (hasId oldPromiseId) promises with
  | None => mret None
  | Some index =>
      let promises' :=
        alter (fun p => supersededWith p newPromiseId now) index promises in
      rewriteRecords set_promises promises';;
      mret (promises' !! index)
  end.

Definition withdrawPromise (now : string) (promiseId : string)
    : Fs (option PromiseEntry) :=
  resolvePromise now promiseId withdrawn None.

End PromiseStore.

(** ** Report store ([src/reports.ts]) *)

(** [uuid] and [now] are the results of [uuidv4()] and
    [new Date().toISOString()]; an absent [workCompleted] takes the default
    of the parameter. *)
Definition createVerdictReport (uuid now : string)
    (reporter : Report.Reporter) (promiseId : string)
    (verdict : Report.Verdict) (workCompleted : option string)
    (relatedEntries tags : option (list string)) : WorkReport :=
  {| Report.id := uuid;
     Report.timestamp := now;
     Report.reporter := reporter;
     Report.promiseId := promiseId;
     Report.report :=
       {| Report.workCompleted :=
            default "Reviewed promise fulfillment" workCompleted;
          Report.remaining := None;
          Report.blockers := None;
          Report.confidenceInCompletion :=
            if bool_decide (Report.status verdict = verdict_fulfilled) then 1%Q
            else if bool_decide (Report.status verdict = verdict_partial)
                 then (1 # 2)%Q
                 else 0%Q |};
     Report.verdict := Some verdict;
     Report.relatedEntries := relatedEntries;
     Report.tags := tags |}.

Definition createWorkReport (uuid now : string)
    (reporter : Report.Reporter) (promiseId : string) (report : Report.Body)
    (relatedEntries tags : option (list string)) : WorkReport :=
  {| Report.id := uuid;
     Report.timestamp := now;
     Report.reporter := reporter;
     Report.promiseId := promiseId;
     Report.report := report;
     Report.verdict := None;
     Report.relatedEntries := relatedEntries;
     Report.tags := tags |}.

(** The promise status a verdict maps to in [addVerdict]. *)
Definition promiseStatusOf (verdictStatus : VerdictStatus) : PromiseStatus :=
  if bool_decide (verdictStatus = verdict_fulfilled) then fulfilled
  else if bool_decide (verdictStatus = verdict_broken) then broken
  else active.

Section ReportStore.
Context `{Json PromiseEntry} `{Json WorkReport} `{Schema WorkReport}.

Definition isValidReport (report : WorkReport) : bool := isValid report.

Definition readReports : Fs (list WorkReport) := readRecords reports_jsonl.

Definition readLastNReports (n : Z) : Fs (list WorkReport) :=
  reports ← readReports;
  mret (js_slice_from (- n) reports).

Definition getReportsForPromise (promiseId : string) : Fs (list WorkReport) :=
  reports ← readReports;
  mret (List.filter (fun r => String.eqb (Report.promiseId r) promiseId) reports).

Definition appendReport (report : WorkReport) : Fs unit :=
  appendRecord reports_jsonl set_reports "report" report.

(** [uuid] and [reportedAt] are what [createVerdictReport] draws from its
    environment, [resolvedAt] the clock reading inside [resolvePromise];
    an absent [reporterAgent] is ['human']. *)
Definition addVerdict (uuid reportedAt resolvedAt : string)
    (promiseId : string) (verdictStatus : VerdictStatus) (reasoning : string)
    (reporterAgent : option string)
    : Fs (option (WorkReport * PromiseEntry)) :=
  found ← getPromiseById promiseId;
  match found with
  | None => mret None
  | Some promise =>
      let report :=
        createVerdictReport uuid reportedAt
          {| Report.agent := default "human" reporterAgent;
             Report.role := human;
             Report.session := None |}
          promiseId
          {| Report.status := verdictStatus; Report.reasoning := reasoning |}
          None None None in
      appendReport report;;
      let promiseStatus := promiseStatusOf verdictStatus in
      if bool_decide (promiseStatus <> active)
      then
        updated ← resolvePromise resolvedAt promiseId promiseStatus
                    (Some (Report.id report));
        mret (Some (report, default promise updated))
      else mret (Some (report, promise))
  end.

End ReportStore.

(** ** The id lookup of the command line ([promise resolve <promise-id>]) *)

(** [promises.find(p => p.id === promiseId || p.id.startsWith(promiseId))] *)
Definition matchesRef (promiseId : string) (p : PromiseEntry) : bool :=
  String.eqb (Promise.id p) promiseId || startsWith (Promise.id p) promiseId.

Definition findByRef (promiseId : string) (promises : list PromiseEntry)
    : option PromiseEntry :=
  List.find (matchesRef promiseId) promises.

Section Cli.
Context `{Json PromiseEntry}.

(** The action of [promise resolve]: the status option is checked against
    the three accepted ones, the promise is looked up by full or partial
    id, and [resolvePromise] is called with the id of the promise found.
    The value returned is the [updated] record the messages are printed
    from. *)
Definition promiseResolveCommand (now : string) (promiseId : string)
    (status : PromiseStatus) : Fs (option PromiseEntry) :=
  if negb (bool_decide (status ∈ [fulfilled; broken; withdrawn]))
  then throw (ProcessExit 1
                "Invalid status. Must be one of: fulfilled, broken, withdrawn")
  else
    promises ← readPromises;
    match findByRef promiseId promises with
    | None => throw (ProcessExit 1 ("Promise not found: " +:+ promiseId))
    | Some promise => resolvePromise now (Promise.id promise) status None
    end.

End Cli.

(** ** Conflict detection ([docs/ARCHITECTURE.md], Detection Algorithm) *)

Inductive ConflictResult :=
  | Conflict (priorEntry : LedgerEntry) (priorIntent : string)
  | NoConflict.

(** [e => e.artifacts.some(a => a.path === file)] *)
Definition touches (file : string) (e : LedgerEntry) : bool :=
  existsb (fun a => String.eqb (Entry.path a) file) (Entry.artifacts e).

(** The [for] loop over the recent entries. *)
Fixpoint firstOtherIntent (intent : string) (recentEntries : list LedgerEntry)
    : ConflictResult :=
  match recentEntries with
  | [] => NoConflict
  | entry :: rest =>
      if negb (String.eqb (Entry.intent (Entry.reasoning entry)) intent)
      then Conflict entry (Entry.intent (Entry.reasoning entry))
      else firstOtherIntent intent rest
  end.

Definition detectConflict (file intent : string) (ledger : list LedgerEntry)
    : ConflictResult :=
  let recentEntries := js_slice_from (-5) (List.filter (touches file) ledger) in
  firstOtherIntent intent recentEntries.

(** ** More of the entry store ([src/ledger.ts]) *)

(** [[...new Set(xs)]]: the distinct strings, each at its first place. *)
Fixpoint distinct (xs : list string) : list string :=
  match xs with
  | [] => []
  | x :: rest => x :: List.filter (fun y => negb (String.eqb y x)) (distinct rest)
  end.

(** Numbers are the rationals that the doubles denote, so comparisons are
    exact; the literal [0.7] is the double nearest to 7/10. *)
Definition double_0_7 : Q := (3152519739159347 # 4503599627370496)%Q.

(** [e => e.reasoning.confidence === undefined || e.reasoning.confidence >= 0.7] *)
Definition isKeyDecision (e : LedgerEntry) : bool :=
  match Entry.confidence (Entry.reasoning e) with
  | None => true
  | Some c => Qle_bool double_0_7 c
  end.

(** [`[${e.agent.name}] ${e.action.summary}`] *)
Definition decisionLine (e : LedgerEntry) : string :=
  "[" +:+ Entry.name (Entry.agent e) +:+ "] " +:+ Entry.summary (Entry.action e).

Record LedgerSummary := {
  totalEntries : nat;
  lastUpdated : string;
  recentAgents : list string;
  recentFiles : list string;
  keyDecisions : list string;
}.

Definition emptySummary : LedgerSummary :=
  {| totalEntries := 0; lastUpdated := "Never";
     recentAgents := []; recentFiles := []; keyDecisions := [] |}.

(** One finding of [validateLedger], [validatePromises] or
    [validateReports], by the data its message is built from:
    [Line N: Invalid JSON - ...] or [Line N: errors]. *)
Inductive Issue :=
  | InvalidJsonAt (line : nat)
  | InvalidRecordAt (line : nat) (errors : list string).

Module Validation.
Record t := { valid : bool; errors : list Issue }.
End Validation.

Section Validate.
Context {R : Type} `{Json R} `{Schema R}.
Variable file : FS -> option text.

(** The [forEach] over the lines, from position [index] on. *)
Fixpoint validateLines (index : nat) (lines : list text) : list Issue :=
  match lines with
  | [] => []
  | line :: rest =>
      match parse line with
      | None => [InvalidJsonAt (index + 1)]
      | Some r =>
          if negb (isValid r)
          then [InvalidRecordAt (index + 1) (validationErrors r)]
          else []
      end ++ validateLines (S index) rest
  end.

Definition validateRecords : Fs Validation.t :=
  fun st =>
    match file st with
    | None => (Return {| Validation.valid := true; Validation.errors := [] |}, st)
    | Some content =>
        let errors := validateLines 0 (nonblank_lines content) in
        (Return {| Validation.valid := Nat.eqb (length errors) 0;
                   Validation.errors := errors |}, st)
    end.

End Validate.

Section EntrySummary.
Context `{Json LedgerEntry} `{Schema LedgerEntry}.

(** An absent [lastN] is 20.  [entries.length === 0] is the case where the
    window has no last entry. *)
Definition generateSummary (lastN : option Z) : Fs LedgerSummary :=
  entries ← readLastN (default 20%Z lastN);
  match last entries with
  | None => mret emptySummary
  | Some lastEntry =>
      allEntries ← readLedger;
      let recentAgents :=
        distinct (map (fun e => Entry.name (Entry.agent e)) entries) in
      let recentFiles :=
        distinct (concat (map (fun e => map Entry.path (Entry.artifacts e))
                              entries)) in
      let keyDecisions :=
        js_slice_from (-10)
          (map decisionLine (List.filter isKeyDecision entries)) in
      mret {| totalEntries := length allEntries;
              lastUpdated := Entry.timestamp lastEntry;
              recentAgents := recentAgents;
              recentFiles := take 20 recentFiles;
              keyDecisions := keyDecisions |}
  end.

Definition validateLedger : Fs Validation.t := validateRecords ledger_jsonl.

(** The action of the [validate] command: the number of entries it prints
    when the ledger is valid, and its exit otherwise. *)
Definition validateCommand : Fs nat :=
  result ← validateLedger;
  if Validation.valid result
  then entries ← readLedger; mret (length entries)
  else throw (ProcessExit 1 "Validation errors:").

End EntrySummary.

(** ** More of the promise store ([src/promises.ts]) *)

Definition createPromise (uuid now : string)
    (promiser : Promise.Promiser) (promisee : Promise.Promisee)
    (promise : Promise.Body) (context : option Promise.Context)
    (tags : option (list string)) : PromiseEntry :=
  {| Promise.id := uuid;
     Promise.timestamp := now;
     Promise.promiser := promiser;
     Promise.promisee := promisee;
     Promise.promise := promise;
     Promise.context := context;
     Promise.status := active;
     Promise.tags := tags;
     Promise.resolvedBy := None;
     Promise.resolvedAt := None;
     Promise.supersededBy := None |}.

Module StatusCounts.
Record t := {
  active : nat; fulfilled : nat; broken : nat; withdrawn : nat;
  superseded : nat;
}.
End StatusCounts.

(** [byStatus[p.status]++] *)
Definition bumpStatus (s : PromiseStatus) (c : StatusCounts.t) : StatusCounts.t :=
  match s with
  | active =>
      StatusCounts.Build_t (S (StatusCounts.active c)) (StatusCounts.fulfilled c)
        (StatusCounts.broken c) (StatusCounts.withdrawn c)
        (StatusCounts.superseded c)
  | fulfilled =>
      StatusCounts.Build_t (StatusCounts.active c) (S (StatusCounts.fulfilled c))
        (StatusCounts.broken c) (StatusCounts.withdrawn c)
        (StatusCounts.superseded c)
  | broken =>
      StatusCounts.Build_t (StatusCounts.active c) (StatusCounts.fulfilled c)
        (S (StatusCounts.broken c)) (StatusCounts.withdrawn c)
        (StatusCounts.superseded c)
  | withdrawn =>
      StatusCounts.Build_t (StatusCounts.active c) (StatusCounts.fulfilled c)
        (StatusCounts.broken c) (S (StatusCounts.withdrawn c))
        (StatusCounts.superseded c)
  | superseded =>
      StatusCounts.Build_t (StatusCounts.active c) (StatusCounts.fulfilled c)
        (StatusCounts.broken c) (StatusCounts.withdrawn c)
        (S (StatusCounts.superseded c))
  end.

(** [byAgent[k] = (byAgent[k] || 0) + 1], for an object used as a map of
    counters (keys that [Object.prototype] defines aside). *)
Definition bumpAgent (k : string) (byAgent : gmap string nat) : gmap string nat :=
  <[k := default 0 (byAgent !! k) + 1]> byAgent.

Module PromiseSummary.
Record t := {
  total : nat;
  byStatus : StatusCounts.t;
  byAgent : gmap string nat;
}.
End PromiseSummary.

Section PromiseQueries.
Context `{Json PromiseEntry} `{Schema PromiseEntry}.

Definition getPromisesByAgent (agentName : string) : Fs (list PromiseEntry) :=
  promises ← readPromises;
  mret (List.filter
          (fun p => String.eqb (Promise.agent (Promise.promiser p)) agentName)
          promises).

Definition getPromisesForAgent (agentName : string) : Fs (list PromiseEntry) :=
  promises ← readPromises;
  mret (List.filter
          (fun p => String.eqb (Promise.to (Promise.promisee p)) agentName
                    || String.eqb (Promise.to (Promise.promisee p)) "*")
          promises).

(** [p.context?.artifacts?.some(a => a.includes(filePath))]: [undefined],
    hence falsy, without a context or without artifacts. *)
Definition getPromisesForFile (filePath : string) : Fs (list PromiseEntry) :=
  promises ← readPromises;
  mret (List.filter
          (fun p =>
             match Promise.context p with
             | None => false
             | Some c =>
                 match Promise.artifacts c with
                 | None => false
                 | Some paths => existsb (fun a => includes a filePath) paths
                 end
             end)
          promises).

Definition validatePromises : Fs Validation.t := validateRecords promises_jsonl.

(** The [for] loop of [getPromiseSummary] and the object it returns; the
    five counters spread into the result are kept together. *)
Definition getPromiseSummary : Fs PromiseSummary.t :=
  promises ← readPromises;
  let counted :=
    foldl (fun acc p =>
             (bumpStatus (Promise.status p) acc.1,
              bumpAgent (Promise.agent (Promise.promiser p)) acc.2))
          (StatusCounts.Build_t 0 0 0 0 0, ∅) promises in
  mret {| PromiseSummary.total := length promises;
          PromiseSummary.byStatus := counted.1;
          PromiseSummary.byAgent := counted.2 |}.

End PromiseQueries.

(** ** More of the report store ([src/reports.ts]) *)

Module VerdictCounts.
Record t := { fulfilled : nat; partial : nat; broken : nat }.
End VerdictCounts.

(** [verdictCounts[r.verdict.status]++] *)
Definition bumpVerdict (v : VerdictStatus) (c : VerdictCounts.t) : VerdictCounts.t :=
  match v with
  | verdict_fulfilled =>
      VerdictCounts.Build_t (S (VerdictCounts.fulfilled c))
        (VerdictCounts.partial c) (VerdictCounts.broken c)
  | verdict_partial =>
      VerdictCounts.Build_t (VerdictCounts.fulfilled c)
        (S (VerdictCounts.partial c)) (VerdictCounts.broken c)
  | verdict_broken =>
      VerdictCounts.Build_t (VerdictCounts.fulfilled c)
        (VerdictCounts.partial c) (S (VerdictCounts.broken c))
  end.

Module ReportSummary.
Record t := {
  total : nat;
  withVerdicts : nat;
  byAgent : gmap string nat;
  verdictCounts : VerdictCounts.t;
}.
End ReportSummary.

(** One round of the [for] loop of [getReportSummary]. *)
Definition countReport (acc : nat * gmap string nat * VerdictCounts.t)
    (r : WorkReport) : nat * gmap string nat * VerdictCounts.t :=
  let '(withVerdicts, byAgent, verdictCounts) := acc in
  let byAgent' := bumpAgent (Report.agent (Report.reporter r)) byAgent in
  match Report.verdict r with
  | Some v => (S withVerdicts, byAgent', bumpVerdict (Report.status v) verdictCounts)
  | None => (withVerdicts, byAgent', verdictCounts)
  end.

Section ReportQueries.
Context `{Json PromiseEntry} `{Json WorkReport} `{Schema WorkReport}.


Definition getReportsByAgent (agentName : string) : Fs (list WorkReport) :=
  reports ← readReports;
  mret (List.filter
          (fun r => String.eqb (Report.agent (Report.reporter r)) agentName)
          reports).

Definition getReportsWithVerdicts : Fs (list WorkReport) :=
  reports ← readReports;
  mret (List.filter
          (fun r => match Report.verdict r with Some _ => true | None => false end)
          reports).


Definition validateReports : Fs Validation.t := validateRecords reports_jsonl.

Definition getReportSummary : Fs ReportSummary.t :=
  reports ← readReports;
  let '(withVerdicts, byAgent, verdictCounts) :=
    foldl countReport (0, ∅, VerdictCounts.Build_t 0 0 0) reports in
  mret {| ReportSummary.total := length reports;
          ReportSummary.withVerdicts := withVerdicts;
          ReportSummary.byAgent := byAgent;
          ReportSummary.verdictCounts := verdictCounts |}.

(** The addition of two doubles and the division of a double by a length
    round; they are taken from the environment. *)
Variable fadd : Q -> Q -> Q.
Variable fdiv : Q -> nat -> Q.

Definition getAverageConfidenceForPromise (promiseId : string) : Fs Q :=
  reports ← getReportsForPromise promiseId;
  if Nat.eqb (length reports) 0
  then mret 0%Q
  else
    let total :=
      foldl (fun sum r =>
               fadd sum (Report.confidenceInCompletion (Report.report r)))
            0%Q reports in
    mret (fdiv total (length reports)).

End ReportQueries.

(** ** More of the command line: [promise withdraw] and [report verdict] *)

Section Cli2.
Context `{Json PromiseEntry} `{Json WorkReport} `{Schema WorkReport}.

Definition promiseWithdrawCommand (now : string) (promiseId : string)
    : Fs (option PromiseEntry) :=
  promises ← readPromises;
  match findByRef promiseId promises with
  | None => throw (ProcessExit 1 ("Promise not found: " +:+ promiseId))
  | Some promise => withdrawPromise now (Promise.id promise)
  end.

(** The option [--agent] has the default ['human']. *)
Definition reportVerdictCommand (uuid reportedAt resolvedAt : string)
    (promiseId : string) (status : VerdictStatus) (reason : string)
    (agent : option string) : Fs (option (WorkReport * PromiseEntry)) :=
  if negb (bool_decide
             (status ∈ [verdict_fulfilled; verdict_partial; verdict_broken]))
  then throw (ProcessExit 1
                "Invalid verdict. Must be one of: fulfilled, partial, broken")
  else
    promises ← readPromises;
    match findByRef promiseId promises with
    | None => throw (ProcessExit 1 ("Promise not found: " +:+ promiseId))
    | Some promise =>
        addVerdict uuid reportedAt resolvedAt (Promise.id promise) status reason
          (Some (default "human" agent))
    end.

End Cli2.

(** ** A reference environment

    One concrete codec and one concrete validator per record kind, used to
    run the stores on explicit files.  A record is written as a brace
    delimited, comma separated sequence of quoted fields, with backslash
    escapes for the quote, the backslash and the line feed. *)

Module Sample.

Definition dq : ascii := "034"%char.
Definition bs : ascii := "092"%char.

Fixpoint escape (s : text) : text :=
  match s with
  | [] => []
  | c :: s' =>
      (if Ascii.eqb c dq || Ascii.eqb c bs then [bs; c]
       else if Ascii.eqb c nl then [bs; "n"%char]
       else [c]) ++ escape s'
  end.

Definition quote (s : string) : text := dq :: escape (of_string s) ++ [dq].

Fixpoint commas (items : list text) : text :=
  match items with
  | [] => []
  | [i] => i
  | i :: rest => i ++ ","%char :: commas rest
  end.

Definition write_fields (fields : list string) : text :=
  "{"%char :: commas (map quote fields) ++ ["}"%char].

(** [cur] holds the characters of the field being read, last one first. *)
Fixpoint scan (s : text) (cur : option text) (acc : list string)
    : option (list string) :=
  match s with
  | [] => None
  | c :: rest =>
      match cur with
      | None =>
          if Ascii.eqb c dq then scan rest (Some []) acc
          else if Ascii.eqb c ","%char then scan rest None acc
          else if Ascii.eqb c "}"%char
               then match rest with [] => Some (rev acc) | _ :: _ => None end
               else None
      | Some w =>
          if Ascii.eqb c bs
          then match rest with
               | [] => None
               | d :: rest' =>
                   scan rest'
                     (Some ((if Ascii.eqb d "n"%char then nl else d) :: w)) acc
               end
          else if Ascii.eqb c dq
               then scan rest None (String.string_of_list_ascii (rev w) :: acc)
               else scan rest (Some (c :: w)) acc
      end
  end.

Definition read_fields (t : text) : option (list string) :=
  match t with
  | c :: rest => if Ascii.eqb c "{"%char then scan rest None [] else None
  | [] => None
  end.

Definition write_list (l : list string) : string :=
  String.string_of_list_ascii (write_fields l).
Definition read_list (s : string) : option (list string) :=
  read_fields (of_string s).

Definition write_opt {A} (w : A -> string) (o : option A) : string :=
  match o with
  | None => EmptyString
  | Some a => String "="%char (w a)
  end.
Definition read_opt {A} (r : string -> option A) (s : string)
    : option (option A) :=
  match s with
  | EmptyString => Some None
  | String c s' => if Ascii.eqb c "="%char then Some <$> r s' else None
  end.

Definition write_Z (z : Z) : string := NilZero.string_of_int (Z.to_int z).
Definition read_Z (s : string) : option Z :=
  Z.of_int <$> NilZero.int_of_string s.

Definition write_Q (q : Q) : string :=
  write_list [write_Z (Qnum q); write_Z (Zpos (Qden q))].
Definition read_Q (s : string) : option Q :=
  l ← read_list s;
  match l with
  | [n; d] =>
      n ← read_Z n; d ← read_Z d;
      match d with Zpos d => Some (Qmake n d) | _ => None end
  | _ => None
  end.

Definition write_artifactAction (a : Entry.ArtifactAction) : string :=
  match a with
  | Entry.created => "created" | Entry.modified => "modified"
  | Entry.deleted => "deleted" | Entry.read => "read"
  end.
Definition read_artifactAction (s : string) : option Entry.ArtifactAction :=
  if String.eqb s "created" then Some Entry.created
  else if String.eqb s "modified" then Some Entry.modified
  else if String.eqb s "deleted" then Some Entry.deleted
  else if String.eqb s "read" then Some Entry.read
  else None.

Definition write_artifact (a : Entry.Artifact) : string :=
  write_list [Entry.path a; write_artifactAction (Entry.artifactAction a)].
Definition read_artifact (s : string) : option Entry.Artifact :=
  l ← read_list s;
  match l with
  | [p; a] => a ← read_artifactAction a; Some (Entry.Build_Artifact p a)
  | _ => None
  end.

Definition write_entry (e : LedgerEntry) : text :=
  write_fields
    [Entry.id e; Entry.timestamp e; Entry.name (Entry.agent e);
     Entry.summary (Entry.action e);
     Entry.intent (Entry.reasoning e);
     write_opt write_Q (Entry.confidence (Entry.reasoning e));
     write_list (map write_artifact (Entry.artifacts e))].
Definition read_entry (t : text) : option LedgerEntry :=
  l ← read_fields t;
  match l with
  | [i; ts; ag; su; it; co; ar] =>
      co ← read_opt read_Q co;
      ar ← read_list ar;
      ar ← mapM read_artifact ar;
      Some (Entry.Build_t i ts (Entry.Build_Agent ag) (Entry.Build_Action su)
              (Entry.Build_Reasoning it co) ar)
  | _ => None
  end.

Definition write_status (s : PromiseStatus) : string :=
  match s with
  | active => "active" | fulfilled => "fulfilled" | broken => "broken"
  | withdrawn => "withdrawn" | superseded => "superseded"
  end.
Definition read_status (s : string) : option PromiseStatus :=
  if String.eqb s "active" then Some active
  else if String.eqb s "fulfilled" then Some fulfilled
  else if String.eqb s "broken" then Some broken
  else if String.eqb s "withdrawn" then Some withdrawn
  else if String.eqb s "superseded" then Some superseded
  else None.

Definition write_type (t : PromiseType) : string :=
  match t with
  | will_do => "will-do" | will_not_do => "will-not-do"
  | will_maintain => "will-maintain" | will_provide => "will-provide"
  end.
Definition read_type (s : string) : option PromiseType :=
  if String.eqb s "will-do" then Some will_do
  else if String.eqb s "will-not-do" then Some will_not_do
  else if String.eqb s "will-maintain" then Some will_maintain
  else if String.eqb s "will-provide" then Some will_provide
  else None.

Definition write_scope (s : PromiseScope) : string :=
  match s with
  | session_scope => "session" | project_scope => "project"
  | permanent_scope => "permanent"
  end.
Definition read_scope (s : string) : option PromiseScope :=
  if String.eqb s "session" then Some session_scope
  else if String.eqb s "project" then Some project_scope
  else if String.eqb s "permanent" then Some permanent_scope
  else None.

Definition write_context (c : Promise.Context) : string :=
  write_list [write_opt write_list (Promise.relatedEntries c);
              write_opt write_list (Promise.artifacts c)].
Definition read_context (s : string) : option Promise.Context :=
  l ← read_list s;
  match l with
  | [r; a] =>
      r ← read_opt read_list r; a ← read_opt read_list a;
      Some (Promise.Build_Context r a)
  | _ => None
  end.

Definition write_promise (p : PromiseEntry) : text :=
  write_fields
    [Promise.id p; Promise.timestamp p;
     Promise.agent (Promise.promiser p);
     write_opt id (Promise.session (Promise.promiser p));
     Promise.to (Promise.promisee p);
     write_opt write_scope (Promise.scope (Promise.promisee p));
     write_type (Promise.type (Promise.promise p));
     Promise.summary (Promise.promise p);
     write_opt id (Promise.description (Promise.promise p));
     write_opt write_list (Promise.conditions (Promise.promise p));
     write_opt write_context (Promise.context p);
     write_status (Promise.status p);
     write_opt write_list (Promise.tags p);
     write_opt id (Promise.resolvedBy p);
     write_opt id (Promise.resolvedAt p);
     write_opt id (Promise.supersededBy p)].
Definition read_promise (t : text) : option PromiseEntry :=
  l ← read_fields t;
  match l with
  | [i; ts; ag; se; to; sc; ty; su; de; co; cx; st; tg; rb; ra; sb] =>
      se ← read_opt Some se; sc ← read_opt read_scope sc;
      ty ← read_type ty; de ← read_opt Some de;
      co ← read_opt read_list co; cx ← read_opt read_context cx;
      st ← read_status st; tg ← read_opt read_list tg;
      rb ← read_opt Some rb; ra ← read_opt Some ra; sb ← read_opt Some sb;
      Some (Promise.Build_t i ts (Promise.Build_Promiser ag se)
              (Promise.Build_Promisee to sc) (Promise.Build_Body ty su de co)
              cx st tg rb ra sb)
  | _ => None
  end.

Definition write_role (r : ReporterRole) : string :=
  match r with actor => "actor" | witness => "witness" | human => "human" end.
Definition read_role (s : string) : option ReporterRole :=
  if String.eqb s "actor" then Some actor
  else if String.eqb s "witness" then Some witness
  else if String.eqb s "human" then Some human
  else None.

Definition write_verdictStatus (v : VerdictStatus) : string :=
  match v with
  | verdict_fulfilled => "fulfilled" | verdict_partial => "partial"
  | verdict_broken => "broken"
  end.
Definition read_verdictStatus (s : string) : option VerdictStatus :=
  if String.eqb s "fulfilled" then Some verdict_fulfilled
  else if String.eqb s "partial" then Some verdict_partial
  else if String.eqb s "broken" then Some verdict_broken
  else None.

Definition write_verdict (v : Report.Verdict) : string :=
  write_list [write_verdictStatus (Report.status v); Report.reasoning v].
Definition read_verdict (s : string) : option Report.Verdict :=
  l ← read_list s;
  match l with
  | [st; re] => st ← read_verdictStatus st; Some (Report.Build_Verdict st re)
  | _ => None
  end.

Definition write_report (r : WorkReport) : text :=
  write_fields
    [Report.id r; Report.timestamp r;
     Report.agent (Report.reporter r);
     write_role (Report.role (Report.reporter r));
     write_opt id (Report.session (Report.reporter r));
     Report.promiseId r;
     Report.workCompleted (Report.report r);
     write_opt write_list (Report.remaining (Report.report r));
     write_opt write_list (Report.blockers (Report.report r));
     write_Q (Report.confidenceInCompletion (Report.report r));
     write_opt write_verdict (Report.verdict r);
     write_opt write_list (Report.relatedEntries r);
     write_opt write_list (Report.tags r)].
Definition read_report (t : text) : option WorkReport :=
  l ← read_fields t;
  match l with
  | [i; ts; ag; ro; se; pi; wc; rm; bl; cf; ve; re; tg] =>
      ro ← read_role ro; se ← read_opt Some se;
      rm ← read_opt read_list rm; bl ← read_opt read_list bl;
      cf ← read_Q cf; ve ← read_opt read_verdict ve;
      re ← read_opt read_list re; tg ← read_opt read_list tg;
      Some (Report.Build_t i ts (Report.Build_Reporter ag ro se) pi
              (Report.Build_Body wc rm bl cf) ve re tg)
  | _ => None
  end.

#[export] Instance json_entry : Json LedgerEntry :=
  {| stringify := write_entry; parse := read_entry |}.
#[export] Instance json_promise : Json PromiseEntry :=
  {| stringify := write_promise; parse := read_promise |}.
#[export] Instance json_report : Json WorkReport :=
  {| stringify := write_report; parse := read_report |}.

(** Validators for the constraints the data model states: an entry needs an
    intent and a summary of at most 200 characters, a promise a summary, a
    report a confidence between 0 and 1. *)
Definition entry_errors (e : LedgerEntry) : list string :=
  (if String.eqb (Entry.intent (Entry.reasoning e)) EmptyString
   then ["/reasoning must have required property 'intent'"] else [])
  ++ (if 200 <? String.length (Entry.summary (Entry.action e))
      then ["/action/summary must NOT have more than 200 characters"] else []).

Definition promise_errors (p : PromiseEntry) : list string :=
  if String.eqb (Promise.summary (Promise.promise p)) EmptyString
  then ["/promise/summary must NOT have fewer than 1 characters"] else [].

Definition report_errors (r : WorkReport) : list string :=
  let c := Report.confidenceInCompletion (Report.report r) in
  if Qle_bool 0 c && Qle_bool c 1 then []
  else ["/report/confidenceInCompletion must be >= 0 and <= 1"].

Definition no_errors (l : list string) : bool :=
  match l with [] => true | _ :: _ => false end.

#[export] Instance schema_entry : Schema LedgerEntry :=
  {| isValid e := no_errors (entry_errors e); validationErrors := entry_errors |}.
#[export] Instance schema_promise : Schema PromiseEntry :=
  {| isValid p := no_errors (promise_errors p);
     validationErrors := promise_errors |}.
#[export] Instance schema_report : Schema WorkReport :=
  {| isValid r := no_errors (report_errors r);
     validationErrors := report_errors |}.

(** Sample records. *)
Definition entry1 : LedgerEntry :=
  {| Entry.id := "e-1"; Entry.timestamp := "2025-01-01T10:00:00.000Z";
     Entry.agent := {| Entry.name := "claude-code" |};
     Entry.action := {| Entry.summary := "Add feature" |};
     Entry.reasoning := {| Entry.intent := "add feature";
                           Entry.confidence := Some (9 # 10)%Q |};
     Entry.artifacts := [ {| Entry.path := "a.ts";
                             Entry.artifactAction := Entry.created |} ] |}.

Definition entry2 : LedgerEntry :=
  {| Entry.id := "e-2"; Entry.timestamp := "2025-01-01T11:00:00.000Z";
     Entry.agent := {| Entry.name := "cursor" |};
     Entry.action := {| Entry.summary := "Remove feature" |};
     Entry.reasoning := {| Entry.intent := "remove feature";
                           Entry.confidence := None |};
     Entry.artifacts := [ {| Entry.path := "a.ts";
                             Entry.artifactAction := Entry.modified |} ] |}.

Definition promise_with (i ts : string) (st : PromiseStatus) : PromiseEntry :=
  {| Promise.id := i; Promise.timestamp := ts;
     Promise.promiser := {| Promise.agent := "claude-code";
                            Promise.session := None |};
     Promise.promisee := {| Promise.to := "*";
                            Promise.scope := Some project_scope |};
     Promise.promise := {| Promise.type := will_do;
                           Promise.summary := "Add OAuth";
                           Promise.description := None;
                           Promise.conditions := None |};
     Promise.context := None;
     Promise.status := st;
     Promise.tags := None;
     Promise.resolvedBy := None;
     Promise.resolvedAt := None;
     Promise.supersededBy := None |}.

Definition entry3 : LedgerEntry :=
  {| Entry.id := "e-3"; Entry.timestamp := "2025-01-01T12:00:00.000Z";
     Entry.agent := {| Entry.name := "claude-code" |};
     Entry.action := {| Entry.summary := "Add feature" |};
     Entry.reasoning := {| Entry.intent := "add feature";
                           Entry.confidence := None |};
     Entry.artifacts := [ {| Entry.path := "src/a.ts";
                             Entry.artifactAction := Entry.created |} ] |}.

(** An entry without an intent. *)
Definition entry_no_intent : LedgerEntry :=
  {| Entry.id := "e-4"; Entry.timestamp := "2025-01-01T13:00:00.000Z";
     Entry.agent := {| Entry.name := "cursor" |};
     Entry.action := {| Entry.summary := "Tidy up" |};
     Entry.reasoning := {| Entry.intent := EmptyString;
                           Entry.confidence := None |};
     Entry.artifacts := [] |}.

Definition promiseA : PromiseEntry :=
  promise_with "abc-1" "2025-01-01T10:00:00.000Z" active.
Definition promiseB : PromiseEntry :=
  promise_with "abc-2" "2025-01-01T11:00:00.000Z" active.
Definition promiseDone : PromiseEntry :=
  promise_with "def-1" "2025-01-01T12:00:00.000Z" fulfilled.
Definition promiseFuture : PromiseEntry :=
  promise_with "fut-1" "2999-01-01T00:00:00.000Z" active.

Definition report1 : WorkReport :=
  createWorkReport "r-0" "2025-01-02T09:00:00.000Z"
    {| Report.agent := "claude-code"; Report.role := actor;
       Report.session := None |}
    "abc-1"
    {| Report.workCompleted := "Implemented the login flow";
       Report.remaining := Some ["tests"]; Report.blockers := None;
       Report.confidenceInCompletion := (4 # 5)%Q |}
    None None.

Definition empty_fs : FS :=
  {| dir := true; ledger_jsonl := Some []; promises_jsonl := Some [];
     reports_jsonl := Some [] |}.

(** The store whose files hold the given records, one per line. *)
Definition store (es : list LedgerEntry) (ps : list PromiseEntry)
    (rs : list WorkReport) : FS :=
  {| dir := true;
     ledger_jsonl := Some (unlines (map stringify es));
     promises_jsonl := Some (unlines (map stringify ps));
     reports_jsonl := Some (unlines (map stringify rs)) |}.

(** A ledger whose last line was written without its line feed. *)
Definition unterminated_fs : FS :=
  {| dir := true; ledger_jsonl := Some (stringify entry1);
     promises_jsonl := Some []; reports_jsonl := Some [] |}.

(** A ledger whose second line is blank and whose third line is not JSON. *)
Definition blank_then_bad : text :=
  stringify entry1 ++ [nl] ++ [nl] ++ of_string "not json" ++ [nl].
Definition blank_then_bad_fs : FS :=
  {| dir := true; ledger_jsonl := Some blank_then_bad;
     promises_jsonl := Some []; reports_jsonl := Some [] |}.

(** A ledger file with white space only. *)
Definition blank_fs : FS :=
  {| dir := true; ledger_jsonl := Some [" "%char; nl; nl; " "%char];
     promises_jsonl := None; reports_jsonl := None |}.

Definition report2 : WorkReport :=
  createVerdictReport "r-2" "2025-01-03T09:00:00.000Z"
    {| Report.agent := "human"; Report.role := human; Report.session := None |}
    "abc-1"
    {| Report.status := verdict_fulfilled; Report.reasoning := "done" |}
    None None None.

(** A report validator that also asks a verdict for a reasoning. *)
Definition strict_report_errors (r : WorkReport) : list string :=
  report_errors r
  ++ match Report.verdict r with
     | Some v =>
         if String.eqb (Report.reasoning v) EmptyString
         then ["/verdict/reasoning must NOT have fewer than 1 characters"]
         else []
     | None => []
     end.

Definition strict_schema_report : Schema WorkReport :=
  {| isValid r := no_errors (strict_report_errors r);
     validationErrors := strict_report_errors |}.

(** Sums and quotients of confidences, computed exactly. *)
Definition exact_add (a b : Q) : Q := Qplus a b.
Definition exact_div (a : Q) (n : nat) : Q :=
  Qdiv a (inject_Z (Z.of_nat n)).

(** A ledger with a blank line between its entries and another at its end,
    a promises file of white space without a line feed, and a reports file
    that is not JSON. *)
Definition gapped_fs : FS :=
  {| dir := true;
     ledger_jsonl :=
       Some (stringify entry1 ++ [nl; nl] ++ stringify entry3 ++ [nl; nl]);
     promises_jsonl := Some [" "%char; nl; " "%char];
     reports_jsonl := Some (of_string "not json" ++ [nl]) |}.

(** A ledger whose only line ends with a form feed, which [trim] takes for
    white space and [JSON.parse] does not. *)
Definition form_feed_fs : FS :=
  {| dir := true;
     ledger_jsonl := Some (stringify entry1 ++ ["012"%char; nl]);
     promises_jsonl := Some []; reports_jsonl := Some [] |}.

End Sample.

(** ** Notions used to state the properties *)

(** An outcome computed without touching the files, as a store operation. *)
Definition lift {A} (r : Error + A) : Fs A :=
  fun st =>
    match r with
    | inl e => (Throw e, st)
    | inr a => (Return a, st)
    end.

(** What [readRecords] makes of the contents of its file. *)
Definition readContent {R} `{Json R} (file : option text) : Error + list R :=
  match file with
  | None => inr []
  | Some content => parseLines 0 (nonblank_lines content)
  end.

(** A stream file is well formed when it is absent or made of clean lines
    that parse, each followed by a line feed: the files that [append*] and
    the rewriting of [resolvePromise] produce. *)
Definition well_formed (R : Type) `{Json R} (file : option text) : Prop :=
  match file with
  | None => True
  | Some content =>
      exists lines : list text,
        content = unlines lines
        /\ Forall (fun l => clean_line l = true /\ is_Some (parse (R:=R) l)) lines
  end.

(** The file that [resolvePromise] writes for the promise at [index]. *)
Definition rewritten `{Json PromiseEntry} (ps : list PromiseEntry)
    (index : nat) (s : PromiseStatus) (by_ : option string) (now : string)
    : text :=
  join_nl (map stringify (alter (fun p => resolved p s by_ now) index ps))
  ++ [nl].

(** The report that [addVerdict] builds with [createVerdictReport]. *)
Definition verdictReport (uuid reportedAt : string) (promiseId : string)
    (verdictStatus : VerdictStatus) (reasoning : string)
    (reporterAgent : option string) : WorkReport :=
  createVerdictReport uuid reportedAt
    {| Report.agent := default "human" reporterAgent;
       Report.role := human;
       Report.session := None |}
    promiseId
    {| Report.status := verdictStatus; Report.reasoning := reasoning |}
    None None None.

(** The entries that [detectConflict] scans. *)
Definition scanned (file : string) (ledger : list LedgerEntry)
    : list LedgerEntry :=
  js_slice_from (-5) (List.filter (touches file) ledger).

(** The statuses a promise does not leave, by the data model. *)
Definition is_terminal (s : PromiseStatus) : bool :=
  match s with
  | active => false
  | fulfilled | broken | withdrawn | superseded => true
  end.

(** ISO 8601 timestamps of [toISOString] have a fixed width, so their
    chronological order is the order of the strings. *)
Definition timestamp_le (a b : string) : bool := String.leb a b.

(** The lookup that the specification asks for: a full id or a unique
    prefix, with a tagged outcome. *)
Inductive LookupOutcome :=
  | Found (p : PromiseEntry)
  | NotFound
  | AmbiguousReference (candidates : list PromiseEntry).

Definition lookup_spec (promiseId : string) (promises : list PromiseEntry)
    : LookupOutcome :=
  match List.filter (matchesRef promiseId) promises with
  | [] => NotFound
  | [p] => Found p
  | candidates => AmbiguousReference candidates
  end.

(** The conflict check as the specification words it: the entries scanned
    are those with an artifact path that includes the file path as a
    substring (the predicate of [readByFile]). *)
Definition touches_spec (file : string) (e : LedgerEntry) : bool :=
  existsb (fun a => String.eqb (Entry.path a) file || includes (Entry.path a) file)
          (Entry.artifacts e).

Definition conflictCheck_spec (file intent : string) (ledger : list LedgerEntry)
    : ConflictResult :=
  firstOtherIntent intent (js_slice_from (-5) (List.filter (touches_spec file) ledger)).

(** A stream file that is absent or holds white space only. *)
Definition blank_file (file : option text) : Prop :=
  match file with
  | None => True
  | Some content => forallb is_ws content = true
  end.

(** The record lines of a text: its non-blank lines, cut from the first
    character that is not white space and without trimming the end.  They
    are the lines the reader keeps of the text once a line feed and a line
    follow it; [nonblank_lines] differs by trimming the last of them at its
    end. *)
Definition record_lines (content : text) : list text :=
  List.filter (fun line => truthy (trim line)) (split_nl (trimStart content)).

(** A stream file is terminated when an appended line becomes a line of its
    own and leaves the lines before it as they were read: the file is
    absent, or it is blank or ends with a line feed, and its last record
    line parses the same with the white space that ends it (none in the
    files the store writes; [JSON.parse] ignores spaces, tabs and carriage
    returns there). *)
Definition terminated (R : Type) `{Json R} (file : option text) : Prop :=
  match file with
  | None => True
  | Some content =>
      (forallb is_ws content = true \/ last content = Some nl)
      /\ match last (record_lines content) with
         | None => True
         | Some line => parse (R:=R) (trimEnd line) = parse line
         end
  end.

(** * Properties *)

(** ** Trimming, splitting and joining *)

Section TextFacts.

Lemma trimStart_head (c : ascii) (s : text) :
  is_ws c = false -> trimStart (c :: s) = c :: s.
Proof. intros Hc. simpl. now rewrite Hc. Qed.

Lemma trimEnd_snoc (s : text) (c : ascii) :
  is_ws c = false -> trimEnd (s ++ [c]) = s ++ [c].
Proof.
  intros Hc. unfold trimEnd. rewrite rev_app_distr. simpl.
  rewrite Hc. simpl. now rewrite rev_involutive.
Qed.

Lemma trimEnd_snoc_ws (s : text) (c : ascii) :
  is_ws c = true -> trimEnd (s ++ [c]) = trimEnd s.
Proof.
  intros Hc. unfold trimEnd. rewrite rev_app_distr. simpl. now rewrite Hc.
Qed.

Lemma is_ws_nl : is_ws nl = true.
Proof. reflexivity. Qed.

Lemma split_nl_nonempty (s : text) : split_nl s <> [].
Proof.
  destruct s as [|c s]; simpl; [discriminate|].
  destruct (Ascii.eqb c nl); [discriminate|].
  destruct (split_nl s); discriminate.
Qed.

Lemma split_nl_one_line (l : text) : one_line l = true -> split_nl l = [l].
Proof.
  induction l as [|c l IH]; simpl; [reflexivity|].
  intros [Hc Hl]%andb_prop. apply negb_true_iff in Hc. rewrite Hc.
  now rewrite (IH Hl).
Qed.

Lemma split_nl_app (l rest : text) :
  one_line l = true -> split_nl (l ++ nl :: rest) = l :: split_nl rest.
Proof.
  induction l as [|c l IH]; simpl.
  - intros _. reflexivity.
  - intros [Hc Hl]%andb_prop. apply negb_true_iff in Hc. rewrite Hc.
    now rewrite (IH Hl).
Qed.

Lemma split_nl_join (ls : list text) :
  Forall (fun l => one_line l = true) ls -> ls <> [] ->
  split_nl (join_nl ls) = ls.
Proof.
  induction 1 as [|l ls Hl Hls IH]; [congruence|]. intros _.
  destruct ls as [|l' ls'].
  - simpl. now apply split_nl_one_line.
  - change (join_nl (l :: l' :: ls')) with (l ++ nl :: join_nl (l' :: ls')).
    rewrite split_nl_app by assumption. f_equal. now apply IH.
Qed.

Lemma unlines_join (ls : list text) :
  ls <> [] -> unlines ls = join_nl ls ++ [nl].
Proof.
  induction ls as [|l ls IH]; [congruence|]. intros _.
  destruct ls as [|l' ls'].
  - unfold unlines. simpl. now rewrite app_nil_r.
  - change (unlines (l :: l' :: ls')) with ((l ++ [nl]) ++ unlines (l' :: ls')).
    rewrite IH by discriminate.
    change (join_nl (l :: l' :: ls')) with (l ++ nl :: join_nl (l' :: ls')).
    now rewrite <- !app_assoc.
Qed.

Lemma unlines_app (ls1 ls2 : list text) :
  unlines (ls1 ++ ls2) = unlines ls1 ++ unlines ls2.
Proof. unfold unlines. now rewrite map_app, concat_app. Qed.

Lemma unlines_snoc (ls : list text) (l : text) :
  unlines (ls ++ [l]) = unlines ls ++ l ++ [nl].
Proof. rewrite unlines_app. unfold unlines. simpl. now rewrite app_nil_r. Qed.

(** What [clean_line] says, unfolded. *)
Lemma clean_line_inv (l : text) :
  clean_line l = true ->
  one_line l = true
  /\ (exists c s, l = c :: s /\ is_ws c = false)
  /\ (exists s d, l = s ++ [d] /\ is_ws d = false).
Proof.
  unfold clean_line. intros [[H1 H2]%andb_prop H3]%andb_prop.
  split; [assumption|]. split.
  - destruct l as [|c s]; [discriminate|].
    exists c, s. split; [reflexivity|]. now apply negb_true_iff.
  - destruct (rev l) as [|d s] eqn:E; [discriminate|].
    exists (rev s), d. split; [|now apply negb_true_iff].
    rewrite <- (rev_involutive l), E. reflexivity.
Qed.

Lemma clean_line_truthy (l : text) :
  clean_line l = true -> truthy (trim l) = true.
Proof.
  intros (_ & (c & s & -> & Hc) & (s' & d & E & Hd))%clean_line_inv.
  unfold trim. rewrite trimStart_head by assumption.
  rewrite E, trimEnd_snoc by assumption. now destruct s'.
Qed.

Lemma join_nl_head (l : text) (ls : list text) (c : ascii) (s : text) :
  l = c :: s -> exists s', join_nl (l :: ls) = c :: s'.
Proof.
  intros ->. destruct ls; simpl; eauto.
Qed.

Lemma join_nl_last (ls : list text) (l : text) (s : text) (d : ascii) :
  l = s ++ [d] -> exists s', join_nl (ls ++ [l]) = s' ++ [d].
Proof.
  intros ->. induction ls as [|l0 ls IH].
  - simpl. eauto.
  - destruct IH as [s' IH]. rewrite <- app_comm_cons.
    match goal with
    | |- context [join_nl (l0 :: ?x)] =>
        destruct x as [|t ts] eqn:E; [now destruct ls|]
    end.
    change (join_nl (l0 :: t :: ts)) with (l0 ++ nl :: join_nl (t :: ts)).
    rewrite IH. exists (l0 ++ nl :: s').
    now rewrite <- app_assoc.
Qed.

Lemma trim_unlines (ls : list text) :
  Forall (fun l => clean_line l = true) ls -> ls <> [] ->
  trim (unlines ls) = join_nl ls.
Proof.
  intros Hall Hne. rewrite unlines_join by assumption.
  assert (exists c s, join_nl ls = c :: s /\ is_ws c = false) as (c & s & Ec & Hc).
  { destruct ls as [|l ls]; [congruence|].
    apply Forall_cons in Hall as [Hl _].
    apply clean_line_inv in Hl as (_ & (c & s & E & Hc) & _).
    destruct (join_nl_head l ls c s E) as [s' Es']. eauto. }
  assert (exists s d, join_nl ls = s ++ [d] /\ is_ws d = false) as (s' & d & Ed & Hd).
  { destruct (exists_last Hne) as (ls' & l & ->).
    apply Forall_app in Hall as [_ Hl]. apply Forall_cons in Hl as [Hl _].
    apply clean_line_inv in Hl as (_ & _ & (s0 & d & E & Hd)).
    destruct (join_nl_last ls' l s0 d E) as [s' Es']. eauto. }
  unfold trim. rewrite Ec. rewrite <- app_comm_cons.
  rewrite trimStart_head by assumption.
  rewrite app_comm_cons, <- Ec. rewrite trimEnd_snoc_ws by apply is_ws_nl.
  rewrite Ed. now apply trimEnd_snoc.
Qed.

(** A file made of clean lines, each followed by a line feed, is read back
    as exactly those lines. *)
Lemma nonblank_lines_unlines (ls : list text) :
  Forall (fun l => clean_line l = true) ls ->
  nonblank_lines (unlines ls) = ls.
Proof.
  intros Hall. destruct ls as [|l0 ls0] eqn:E; [reflexivity|]. rewrite <- E in *.
  assert (ls <> []) as Hne by (rewrite E; discriminate). clear E.
  unfold nonblank_lines. rewrite trim_unlines by assumption.
  rewrite split_nl_join; [|eapply Forall_impl; [eassumption|]|assumption].
  - clear Hne. induction Hall as [|l ls Hl _ IH]; [reflexivity|].
    simpl. rewrite clean_line_truthy by assumption. now rewrite IH.
  - intros l Hl. now apply clean_line_inv in Hl as [? _].
Qed.

Lemma trimStart_blank (s : text) : forallb is_ws s = true -> trimStart s = [].
Proof.
  induction s as [|c s IH]; simpl; [reflexivity|].
  intros [Hc Hs]%andb_prop. rewrite Hc. auto.
Qed.

Lemma nonblank_lines_blank (s : text) :
  forallb is_ws s = true -> nonblank_lines s = [].
Proof.
  intros Hs. unfold nonblank_lines, trim.
  rewrite trimStart_blank by assumption. reflexivity.
Qed.

Lemma trimStart_app (a b : text) :
  trimStart (a ++ b)
  = if forallb is_ws a then trimStart b else trimStart a ++ b.
Proof.
  induction a as [|c a IH]; simpl; [reflexivity|].
  destruct (is_ws c); [assumption|reflexivity].
Qed.

Lemma forallb_rev {A} (f : A -> bool) (l : list A) :
  forallb f (rev l) = forallb f l.
Proof.
  induction l as [|x l IH]; simpl; [reflexivity|].
  rewrite forallb_app, IH. simpl. rewrite andb_true_r. apply andb_comm.
Qed.

Lemma trimEnd_app (a b : text) :
  trimEnd (a ++ b) = if forallb is_ws b then trimEnd a else a ++ trimEnd b.
Proof.
  unfold trimEnd. rewrite rev_app_distr, trimStart_app, forallb_rev.
  destruct (forallb is_ws b); [reflexivity|].
  now rewrite rev_app_distr, rev_involutive.
Qed.

Lemma trimStart_ws (s : text) :
  exists w, s = w ++ trimStart s /\ forallb is_ws w = true.
Proof.
  induction s as [|c s (w & E & Hw)]; [now exists []|]. simpl.
  destruct (is_ws c) eqn:Hc.
  - exists (c :: w). simpl. rewrite Hc, Hw. now rewrite <- E.
  - now exists [].
Qed.

Lemma trimStart_starts (s : text) :
  trimStart s = [] \/ exists c s', trimStart s = c :: s' /\ is_ws c = false.
Proof.
  induction s as [|c s IH]; simpl; [now left|].
  destruct (is_ws c) eqn:Hc; [assumption|]. right. eauto.
Qed.

Lemma trimStart_nil (s : text) : trimStart s = [] -> forallb is_ws s = true.
Proof.
  induction s as [|c s IH]; simpl; [reflexivity|].
  destruct (is_ws c); [assumption|discriminate].
Qed.

Lemma trimEnd_nil (s : text) : trimEnd s = [] -> forallb is_ws s = true.
Proof.
  unfold trimEnd. intros E. apply (f_equal (@rev _)) in E.
  rewrite rev_involutive in E. simpl in E.
  apply trimStart_nil in E. now rewrite forallb_rev in E.
Qed.

Lemma truthy_trim_false (l : text) :
  truthy (trim l) = false -> forallb is_ws l = true.
Proof.
  unfold trim. intros Hl.
  destruct (trimEnd (trimStart l)) eqn:E; [|discriminate].
  apply trimEnd_nil in E.
  destruct (trimStart_starts l) as [E0|(c & s' & E0 & Hc)].
  - now apply trimStart_nil.
  - rewrite E0 in E. simpl in E. now rewrite Hc in E.
Qed.

Lemma truthy_trim_true (l : text) :
  truthy (trim l) = true -> forallb is_ws l = false.
Proof.
  intros Hl. destruct (forallb is_ws l) eqn:E; [|reflexivity].
  unfold trim in Hl. now rewrite (trimStart_blank l E) in Hl.
Qed.

Lemma split_nl_app_nl (a b : text) :
  split_nl (a ++ nl :: b) = split_nl a ++ split_nl b.
Proof.
  induction a as [|c a IH]; simpl; [reflexivity|].
  destruct (Ascii.eqb c nl); [now rewrite IH|].
  rewrite IH. destruct (split_nl a) eqn:E; [|reflexivity].
  now apply split_nl_nonempty in E.
Qed.

Lemma join_nl_cons (l : text) (ls : list text) :
  ls <> [] -> join_nl (l :: ls) = l ++ nl :: join_nl ls.
Proof. destruct ls; [congruence|reflexivity]. Qed.

Lemma join_nl_snoc (ls : list text) (l : text) :
  ls <> [] -> join_nl (ls ++ [l]) = join_nl ls ++ nl :: l.
Proof.
  induction ls as [|l0 ls IH]; [congruence|]. intros _.
  destruct ls as [|l1 ls].
  - reflexivity.
  - change ((l0 :: l1 :: ls) ++ [l]) with (l0 :: (l1 :: ls) ++ [l]).
    rewrite join_nl_cons by discriminate.
    rewrite IH by discriminate.
    rewrite (join_nl_cons l0 (l1 :: ls)) by discriminate.
    now rewrite <- app_assoc.
Qed.

Lemma join_nl_split_nl (s : text) : join_nl (split_nl s) = s.
Proof.
  induction s as [|c s IH]; simpl; [reflexivity|].
  destruct (Ascii.eqb_spec c nl) as [->|_].
  - rewrite join_nl_cons by apply split_nl_nonempty. now rewrite IH.
  - destruct (split_nl s) as [|l ls] eqn:E; [now apply split_nl_nonempty in E|].
    destruct ls as [|l' ls]; simpl in *; now rewrite <- IH.
Qed.

Lemma split_nl_lines (s : text) :
  Forall (fun l => one_line l = true) (split_nl s).
Proof.
  induction s as [|c s IH]; simpl; [now repeat constructor|].
  destruct (Ascii.eqb c nl) eqn:Hc; [now constructor|].
  destruct (split_nl s) as [|l ls] eqn:E; [now apply split_nl_nonempty in E|].
  apply Forall_cons in IH as [Hl Hls]. constructor; [|assumption].
  simpl. now rewrite Hc, Hl.
Qed.

Lemma trimEnd_ws (s : text) :
  exists w, s = trimEnd s ++ w /\ forallb is_ws w = true.
Proof.
  destruct (trimStart_ws (rev s)) as (w & E & Hw).
  exists (rev w). split; [|now rewrite forallb_rev].
  unfold trimEnd. rewrite <- rev_app_distr, <- E. now rewrite rev_involutive.
Qed.

Lemma one_line_trimEnd (l : text) :
  one_line l = true -> one_line (trimEnd l) = true.
Proof.
  destruct (trimEnd_ws l) as (w & E & _). unfold one_line.
  rewrite E at 1. rewrite forallb_app. now intros [? _]%andb_prop.
Qed.

Lemma truthy_trim_iff (l : text) :
  truthy (trim l) = negb (forallb is_ws l).
Proof.
  destruct (truthy (trim l)) eqn:E.
  - now rewrite truthy_trim_true.
  - now rewrite truthy_trim_false.
Qed.

Lemma truthy_trim_trimEnd (l : text) :
  truthy (trim (trimEnd l)) = truthy (trim l).
Proof.
  rewrite !truthy_trim_iff. f_equal.
  destruct (trimEnd_ws l) as (w & E & Hw).
  rewrite E at 2. rewrite forallb_app, Hw. now rewrite andb_true_r.
Qed.

(** Trimming a text at its end drops the blank lines that end it and trims
    its last non-blank line, and leaves the lines before alone. *)
Lemma nonblank_lines_trimEnd (ls : list text) :
  ls <> [] -> Forall (fun l => one_line l = true) ls ->
  (List.filter (fun line => truthy (trim line)) ls = []
   /\ List.filter (fun line => truthy (trim line))
        (split_nl (trimEnd (join_nl ls))) = [])
  \/ exists pre L,
       List.filter (fun line => truthy (trim line)) ls = pre ++ [L]
       /\ List.filter (fun line => truthy (trim line))
            (split_nl (trimEnd (join_nl ls))) = pre ++ [trimEnd L].
Proof.
  induction ls as [|l ls IH] using rev_ind; [congruence|].
  intros _ [Hls Hl]%Forall_app. apply Forall_cons in Hl as [Hl _].
  rewrite List.filter_app. simpl.
  destruct (truthy (trim l)) eqn:Hnb.
  - right. exists (List.filter (fun line => truthy (trim line)) ls), l.
    split; [reflexivity|].
    assert (trimEnd (join_nl (ls ++ [l])) = join_nl (ls ++ [trimEnd l])) as ->.
    { destruct ls as [|l0 ls0] eqn:E; [reflexivity|]. rewrite <- E in *.
      assert (ls <> []) as Hne by (rewrite E; discriminate).
      rewrite !join_nl_snoc by assumption.
      change (join_nl ls ++ nl :: l) with (join_nl ls ++ [nl] ++ l).
      rewrite app_assoc, trimEnd_app, (truthy_trim_true l Hnb).
      now rewrite <- app_assoc. }
    rewrite split_nl_join.
    + rewrite List.filter_app. simpl.
      now rewrite truthy_trim_trimEnd, Hnb.
    + apply Forall_app. split; [assumption|].
      repeat constructor. now apply one_line_trimEnd.
    + now destruct ls.
  - rewrite app_nil_r. apply truthy_trim_false in Hnb.
    destruct ls as [|l0 ls0] eqn:E.
    + left. split; [reflexivity|]. simpl.
      replace (trimEnd l) with (@nil ascii); [reflexivity|].
      symmetry. rewrite <- (app_nil_l l), trimEnd_app, Hnb. reflexivity.
    + rewrite <- E in *.
      assert (ls <> []) as Hne by (rewrite E; discriminate).
      rewrite join_nl_snoc by assumption.
      rewrite trimEnd_app. simpl. rewrite Hnb. simpl.
      now apply IH.
Qed.

Lemma trimEnd_clean (s : text) : clean_line s = true -> trimEnd s = s.
Proof.
  intros (_ & _ & (s' & d & -> & Hd))%clean_line_inv. now apply trimEnd_snoc.
Qed.

Lemma trimStart_clean (s : text) : clean_line s = true -> trimStart s = s.
Proof.
  intros (_ & (c & s' & -> & Hc) & _)%clean_line_inv. now apply trimStart_head.
Qed.

Lemma clean_line_nonblank (s : text) :
  clean_line s = true -> forallb is_ws s = false.
Proof. intros Hs. apply truthy_trim_true. now apply clean_line_truthy. Qed.

(** The lines read from a text are its record lines, the last of them
    trimmed at its end. *)
Lemma nonblank_lines_record_lines (content : text) :
  (record_lines content = [] /\ nonblank_lines content = [])
  \/ exists pre L,
       record_lines content = pre ++ [L]
       /\ nonblank_lines content = pre ++ [trimEnd L].
Proof.
  unfold record_lines, nonblank_lines, trim.
  pose proof (nonblank_lines_trimEnd (split_nl (trimStart content))
                (split_nl_nonempty _) (split_nl_lines _)) as Hlines.
  now rewrite join_nl_split_nl in Hlines.
Qed.

(** After a clean line and its line feed are appended to a text that is
    blank or ends with a line feed, the record lines are those of the text,
    followed by the new line; so are the lines read. *)
Lemma record_lines_appended (content s : text) :
  clean_line s = true ->
  forallb is_ws content = true \/ last content = Some nl ->
  record_lines (content ++ s ++ [nl]) = record_lines content ++ [s].
Proof.
  intros Hs Hend.
  pose proof (clean_line_nonblank s Hs) as Hnb.
  pose proof (clean_line_truthy s Hs) as Htr.
  apply clean_line_inv in Hs as Hinv. destruct Hinv as (Hone & _ & _).
  unfold record_lines.
  change (s ++ [nl]) with (s ++ nl :: []).
  destruct (forallb is_ws content) eqn:Hblank.
  - rewrite trimStart_app, Hblank, (trimStart_blank content Hblank).
    rewrite trimStart_app, Hnb, trimStart_clean by assumption.
    rewrite split_nl_app_nl, (split_nl_one_line s) by assumption.
    simpl. now rewrite Htr.
  - destruct Hend as [|Hend]; [discriminate|].
    rewrite trimStart_app, Hblank.
    destruct (trimStart_ws content) as (w & E & Hw).
    assert (exists t0, trimStart content = t0 ++ [nl]) as [t0 Et].
    { apply last_Some. rewrite E, last_app in Hend.
      destruct (last (trimStart content)) as [x|] eqn:El; [assumption|].
      apply last_None in El. rewrite El, app_nil_r in E.
      rewrite <- E, Hblank in Hw. discriminate. }
    rewrite Et, <- app_assoc. simpl.
    rewrite !split_nl_app_nl, (split_nl_one_line s) by assumption.
    rewrite !List.filter_app. simpl. rewrite Htr. simpl.
    now rewrite app_nil_r.
Qed.

Lemma nonblank_lines_appended (content s : text) :
  clean_line s = true ->
  forallb is_ws content = true \/ last content = Some nl ->
  nonblank_lines (content ++ s ++ [nl]) = record_lines content ++ [s].
Proof.
  intros Hs Hend.
  pose proof (record_lines_appended content s Hs Hend) as Hrec.
  destruct (nonblank_lines_record_lines (content ++ s ++ [nl]))
    as [[E _]|(pre & L & E & ->)]; rewrite Hrec in E.
  - symmetry in E. now apply app_cons_not_nil in E.
  - apply app_inj_tail in E as [-> <-]. now rewrite trimEnd_clean.
Qed.

End TextFacts.

(** ** Arrays *)

Section ArrayFacts.
Context {A : Type}.
Implicit Types (f : A -> bool) (l : list A).

Lemma js_slice_from_0 l : js_slice_from 0 l = l.
Proof.
  unfold js_slice_from. simpl.
  replace (Z.to_nat (Z.min 0 (Z.of_nat (length l)))) with 0 by lia.
  reflexivity.
Qed.

(** [slice(-n)] for a positive [n]: the last [n] elements. *)
Lemma js_slice_from_last (n : nat) l :
  0 < n -> js_slice_from (- Z.of_nat n) l = drop (length l - n) l.
Proof.
  intros Hn. unfold js_slice_from.
  destruct (Z.ltb_spec (- Z.of_nat n) 0) as [_|]; [|lia].
  f_equal. lia.
Qed.

Lemma find_findIndex f l x :
  List.find f l = Some x ->
  exists i, findIndex f l = Some i /\ l !! i = Some x /\ f x = true.
Proof.
  induction l as [|y l IH]; simpl; [discriminate|].
  destruct (f y) eqn:Hy.
  - intros [= ->]. exists 0. auto.
  - intros (i & -> & Hi & Hx)%IH. exists (S i). auto.
Qed.

Lemma find_None_findIndex f l :
  List.find f l = None -> findIndex f l = None.
Proof.
  induction l as [|y l IH]; simpl; [reflexivity|].
  destruct (f y); [discriminate|]. intros ->%IH. reflexivity.
Qed.

Lemma findIndex_find f l i :
  findIndex f l = Some i ->
  exists x, l !! i = Some x /\ List.find f l = Some x.
Proof.
  revert i. induction l as [|y l IH]; simpl; intros i; [discriminate|].
  destruct (f y) eqn:Hy.
  - intros [= <-]. eauto.
  - destruct (findIndex f l) as [j|]; simpl; [|discriminate].
    intros [= <-]. destruct (IH j eq_refl) as (x & ? & ?). eauto.
Qed.

(** Replacing the first match by another match: it is found at the same
    place. *)
Lemma find_alter f (g : A -> A) l i x :
  findIndex f l = Some i -> l !! i = Some x -> f (g x) = true ->
  List.find f (alter g i l) = Some (g x)
  /\ alter g i l !! i = Some (g x)
  /\ findIndex f (alter g i l) = Some i.
Proof.
  revert i. induction l as [|y l IH]; simpl; intros i; [discriminate|].
  destruct (f y) eqn:Hy.
  - intros [= <-] [= ->] Hg. simpl. rewrite Hg. auto.
  - destruct (findIndex f l) as [j|] eqn:Hj; simpl; [|discriminate].
    intros [= <-] Hx Hg. simpl in Hx. simpl. rewrite Hy.
    change (list_alter g j l) with (alter g j l).
    destruct (IH j eq_refl Hx Hg) as (-> & -> & ->). auto.
Qed.

Lemma find_head_filter f l : List.find f l = head (List.filter f l).
Proof.
  induction l as [|y l IH]; simpl; [reflexivity|].
  destruct (f y); [reflexivity|assumption].
Qed.

End ArrayFacts.

(** ** Reading a stream file *)

Section ReadFacts.
Context {R : Type} `{Json R}.
Implicit Types (rs : list R) (ls : list text).

Lemma parseLines_app i ls1 ls2 rs1 :
  parseLines i ls1 = inr rs1 ->
  parseLines i (ls1 ++ ls2) =
    match parseLines (i + length ls1) ls2 with
    | inl e => inl e
    | inr rs2 => inr (rs1 ++ rs2)
    end.
Proof.
  revert i rs1. induction ls1 as [|l ls1 IH]; simpl; intros i rs1.
  - intros [= <-]. rewrite Nat.add_0_r. now destruct (parseLines i ls2).
  - destruct (parse l) as [r|]; [|discriminate].
    destruct (parseLines (S i) ls1) as [e|rs] eqn:E; [discriminate|].
    intros [= <-]. rewrite (IH _ _ E).
    replace (S i + length ls1) with (i + S (length ls1)) by lia.
    now destruct (parseLines (i + S (length ls1)) ls2).
Qed.

(** Lines that all parse are all returned. *)
Lemma parseLines_parseable i ls :
  Forall (fun l => is_Some (parse (R:=R) l)) ls ->
  exists rs, parseLines i ls = inr rs /\ length rs = length ls.
Proof.
  intros Hall. revert i. induction Hall as [|l ls [r Hr] _ IH]; intros i; simpl.
  - eauto.
  - rewrite Hr. destruct (IH (S i)) as (rs & -> & Hlen).
    exists (r :: rs). simpl. auto.
Qed.

(** The first line that does not parse aborts the whole read, with its
    1-based position among the lines handed to [map]. *)
Lemma parseLines_throws i good bad rest :
  Forall (fun l => is_Some (parse (R:=R) l)) good ->
  parse (R:=R) bad = None ->
  parseLines i (good ++ bad :: rest) = inl (InvalidJson (i + length good + 1)).
Proof.
  intros Hgood Hbad.
  destruct (parseLines_parseable i good Hgood) as (rs & Hrs & _).
  rewrite (parseLines_app _ _ _ _ Hrs). simpl. now rewrite Hbad.
Qed.

Lemma parseLines_faithful i rs :
  Forall faithful rs -> parseLines i (map stringify rs) = inr rs.
Proof.
  intros Hall. revert i. induction Hall as [|r rs [Hr _] _ IH]; intros i; simpl.
  - reflexivity.
  - now rewrite Hr, IH.
Qed.

Lemma faithful_clean rs :
  Forall faithful rs ->
  Forall (fun l => clean_line l = true) (map stringify rs).
Proof.
  intros Hall. apply Forall_map. eapply Forall_impl; [eassumption|].
  now intros r [_ Hc].
Qed.

(** What [records.map(JSON.stringify).join('\n') + '\n'] is read back as. *)
Lemma readContent_rewritten rs :
  Forall faithful rs -> rs <> [] ->
  readContent (Some (join_nl (map stringify rs) ++ [nl])) = inr rs.
Proof.
  intros Hall Hne. unfold readContent.
  rewrite <- unlines_join by (destruct rs; [congruence|discriminate]).
  rewrite nonblank_lines_unlines by now apply faithful_clean.
  now apply parseLines_faithful.
Qed.

(** A well-formed file is readable, and stays so, with one more record at
    its end, after the line of a faithful record is appended. *)
Lemma readContent_well_formed file :
  well_formed R file -> exists rs : list R, readContent file = inr rs.
Proof.
  destruct file as [content|]; simpl; [|eauto].
  intros (lines & -> & Hall).
  rewrite nonblank_lines_unlines
    by (eapply Forall_impl; [eassumption|]; now intros l [? _]).
  destruct (parseLines_parseable 0 lines) as (rs & Hrs & _); [|eauto].
  eapply Forall_impl; [eassumption|]. now intros l [_ ?].
Qed.

Lemma readContent_appended file rs (r : R) :
  well_formed R file -> readContent file = inr rs -> faithful r ->
  readContent (Some (default [] file ++ stringify r ++ [nl])) = inr (rs ++ [r])
  /\ well_formed R (Some (default [] file ++ stringify r ++ [nl])).
Proof.
  intros Hwf Hread [Hr Hc].
  assert (exists lines : list text,
    default [] file = unlines lines
    /\ Forall (fun l => clean_line l = true /\ is_Some (parse (R:=R) l)) lines
    /\ parseLines 0 lines = inr rs) as (lines & E & Hall & Hparse).
  { destruct file as [content|]; simpl in *.
    - destruct Hwf as (lines & -> & Hall). exists lines.
      split; [reflexivity|]. split; [assumption|].
      rewrite nonblank_lines_unlines in Hread; [assumption|].
      eapply Forall_impl; [eassumption|]. now intros l [? _].
    - exists []. inversion Hread. auto. }
  rewrite E, <- unlines_snoc. split.
  - simpl. rewrite nonblank_lines_unlines.
    + rewrite (parseLines_app _ _ _ _ Hparse). simpl. now rewrite Hr.
    + apply Forall_app. split.
      * eapply Forall_impl; [eassumption|]. now intros l [? _].
      * now repeat constructor.
  - exists (lines ++ [stringify r]). split; [reflexivity|].
    apply Forall_app. split; [assumption|].
    repeat constructor; [assumption|]. rewrite Hr. eauto.
Qed.

Lemma parseLines_last i (pre : list text) (a b : text) :
  parse (R:=R) a = parse b ->
  parseLines (R:=R) i (pre ++ [a]) = parseLines i (pre ++ [b]).
Proof.
  intros E. revert i. induction pre as [|l pre IH]; intros i; simpl.
  - now rewrite E.
  - now rewrite IH.
Qed.

(** A file that takes lines is read, after the line of a faithful record is
    appended, as what it was read as before, followed by the record; and it
    still takes lines. *)
Lemma readContent_appended_line file (old : list R) (r : R) :
  terminated R file -> readContent file = inr old -> faithful r ->
  readContent (Some (default [] file ++ stringify r ++ [nl])) = inr (old ++ [r])
  /\ terminated R (Some (default [] file ++ stringify r ++ [nl])).
Proof.
  intros Htakes Hread [Hr Hc].
  assert ((forallb is_ws (default [] file) = true
           \/ last (default [] file) = Some nl)
          /\ parseLines 0 (record_lines (default [] file)) = inr old)
    as [Hend Hold].
  { destruct file as [content|]; simpl in *; [|split; [now left|assumption]].
    destruct Htakes as [Hend Hlast]. split; [assumption|].
    destruct (nonblank_lines_record_lines content)
      as [[-> E]|(pre & L & E1 & E2)].
    - now rewrite E in Hread.
    - rewrite E1, last_snoc in Hlast. rewrite E1, E2 in *.
      now rewrite <- (parseLines_last 0 pre _ _ Hlast). }
  split.
  - simpl. rewrite nonblank_lines_appended by assumption.
    rewrite (parseLines_app _ _ _ _ Hold). simpl. now rewrite Hr.
  - simpl. split.
    + right. now rewrite !app_assoc, last_snoc.
    + rewrite record_lines_appended, last_snoc by assumption.
      now rewrite trimEnd_clean.
Qed.

End ReadFacts.

(** ** The stream files stay well formed

    The files the store writes itself are well formed: the empty file of
    the initialization, a well-formed file after an append
    ([appendRecord_then_read]), and the file [resolvePromise] rewrites. *)

Section WellFormed.
Context {R : Type} `{Json R}.

Lemma well_formed_absent : well_formed R None.
Proof. exact I. Qed.

Lemma well_formed_empty : well_formed R (Some []).
Proof. exists []. split; [reflexivity|constructor]. Qed.

Lemma well_formed_rewritten (rs : list R) :
  Forall faithful rs -> rs <> [] ->
  well_formed R (Some (join_nl (map stringify rs) ++ [nl])).
Proof.
  intros Hall Hne. exists (map stringify rs). split.
  - symmetry. apply unlines_join. destruct rs; [congruence|discriminate].
  - apply Forall_map. eapply Forall_impl; [eassumption|].
    intros r [Hr Hc]. split; [assumption|]. rewrite Hr. eauto.
Qed.

End WellFormed.

(** ** Store operations *)

Ltac fs_unfold :=
  unfold mbind, Fs_bind, mret, Fs_ret, throw, modify, existsDir, lift in *.

Section StoreFacts.
Context {R : Type} `{Json R} `{Schema R}.
Variable file : FS -> option text.
Variable set_file : option text -> FS -> FS.
Variable what : string.

Lemma readRecords_lift st :
  readRecords file st = lift (readContent (file st)) st.
Proof.
  unfold readRecords, readContent, lift.
  destruct (file st); [destruct (parseLines _ _)|]; reflexivity.
Qed.

(** Reading leaves the files alone. *)
Lemma readRecords_state st (o : Outcome (list R)) st' :
  readRecords file st = (o, st') -> st' = st.
Proof.
  rewrite readRecords_lift. unfold lift.
  destruct (readContent (file st)); now intros [= _ <-].
Qed.

Lemma readRecords_Return st rs st' :
  readRecords file st = (Return rs, st') ->
  readContent (file st) = inr rs /\ st' = st.
Proof.
  rewrite readRecords_lift. unfold lift.
  destruct (readContent (file st)); intros [= <- <-]; auto.
Qed.

Lemma appendRecord_invalid (r : R) st :
  isValid r = false ->
  appendRecord file set_file what r st
  = (Throw (InvalidRecord what (validationErrors r)), st).
Proof. intros Hr. unfold appendRecord. now rewrite Hr. Qed.

Lemma appendRecord_valid (r : R) st :
  isValid r = true ->
  appendRecord file set_file what r st
  = (Return tt,
     appendFile file set_file (stringify r ++ [nl])
       (if dir st then st else mkdir st)).
Proof.
  intros Hr. unfold appendRecord. rewrite Hr. simpl. fs_unfold.
  now destruct (dir st).
Qed.

End StoreFacts.

(** The three stream files are independent of each other and of the
    directory flag. *)
Lemma ledger_appended line st :
  ledger_jsonl (appendFile ledger_jsonl set_ledger line
                  (if dir st then st else mkdir st))
  = Some (default [] (ledger_jsonl st) ++ line).
Proof. now destruct (dir st). Qed.

Lemma promises_appended line st :
  promises_jsonl (appendFile promises_jsonl set_promises line
                    (if dir st then st else mkdir st))
  = Some (default [] (promises_jsonl st) ++ line).
Proof. now destruct (dir st). Qed.

Lemma reports_appended line st :
  reports_jsonl (appendFile reports_jsonl set_reports line
                   (if dir st then st else mkdir st))
  = Some (default [] (reports_jsonl st) ++ line)
  /\ promises_jsonl (appendFile reports_jsonl set_reports line
                      (if dir st then st else mkdir st))
     = promises_jsonl st.
Proof. now destruct (dir st). Qed.

(** *** Reading the last [n] records *)

(** C10. [readLastN], [readLastNPromises] and [readLastNReports] called with
    [n = 0] return what [readLedger], [readPromises] and [readReports]
    return, the entire list of records (or their parse error), because
    [slice(-0)] is [slice(0)]. *)
Theorem readLastN_zero_is_readAll
    `{Json LedgerEntry} `{Json PromiseEntry} `{Json WorkReport} (st : FS) :
  readLastN 0 st = readLedger st
  /\ readLastNPromises 0 st = readPromises st
  /\ readLastNReports 0 st = readReports st.
Proof.
  unfold readLastN, readLedger, readLastNPromises, readPromises,
    readLastNReports, readReports.
  repeat split; fs_unfold.
  all: match goal with
       | |- context [readRecords ?f ?s] =>
           destruct (readRecords f s) as [[rs|e] st'];
           [change (- 0)%Z with 0%Z; now rewrite js_slice_from_0|reflexivity]
       end.
Qed.

(** *** Appending an invalid record *)

(** C4. [appendEntry] of an entry that the schema validator rejects throws
    the [Invalid entry: ...] error and leaves the file system, hence the
    ledger file and every byte and line of it, as it was. *)
Theorem appendEntry_invalid_leaves_file
    `{Json LedgerEntry} `{Schema LedgerEntry} (st : FS) (e : LedgerEntry) :
  isValidEntry e = false ->
  exists st',
    appendEntry e st = (Throw (InvalidRecord "entry" (validationErrors e)), st')
    /\ st' = st
    /\ ledger_jsonl st' = ledger_jsonl st
    /\ length (split_nl (default [] (ledger_jsonl st')))
       = length (split_nl (default [] (ledger_jsonl st))).
Proof.
  intros He. exists st. split; [|auto].
  unfold appendEntry. now apply appendRecord_invalid.
Qed.

(** ** Promises *)

Lemma hasId_resolved id p s by_ now :
  hasId id (resolved p s by_ now) = hasId id p.
Proof. reflexivity. Qed.

Section PromiseFacts.
Context `{Json PromiseEntry}.

Lemma getPromiseById_inv id st o st' :
  getPromiseById id st = (Return o, st') ->
  exists ps, readPromises st = (Return ps, st)
             /\ o = List.find (hasId id) ps /\ st' = st.
Proof.
  unfold getPromiseById. fs_unfold.
  destruct (readPromises st) as [[ps|e] st1] eqn:E; [|discriminate].
  apply readRecords_state in E as E'. subst st1.
  intros [= <- <-]. eauto.
Qed.

Lemma getPromiseById_read id st ps :
  readPromises st = (Return ps, st) ->
  getPromiseById id st = (Return (List.find (hasId id) ps), st).
Proof. intros E. unfold getPromiseById. fs_unfold. now rewrite E. Qed.


Lemma readPromises_moved st1 st2 ps :
  promises_jsonl st2 = promises_jsonl st1 ->
  readPromises st1 = (Return ps, st1) -> readPromises st2 = (Return ps, st2).
Proof.
  intros E. unfold readPromises. rewrite !readRecords_lift, E.
  unfold lift. destruct (readContent (promises_jsonl st1)); now intros [= <-].
Qed.

Lemma resolvePromise_found now id s by_ st ps p :
  readPromises st = (Return ps, st) ->
  List.find (hasId id) ps = Some p ->
  exists index,
    findIndex (hasId id) ps = Some index /\ ps !! index = Some p
    /\ resolvePromise now id s by_ st
       = (Return (Some (resolved p s by_ now)),
          set_promises (Some (rewritten ps index s by_ now)) st).
Proof.
  intros Hread (index & Hi & Hp & Hid)%find_findIndex.
  exists index. split; [assumption|]. split; [assumption|].
  unfold resolvePromise. fs_unfold. rewrite Hread, Hi.
  unfold rewriteRecords, modify. f_equal. f_equal.
  rewrite list_lookup_alter_eq, Hp. reflexivity.
Qed.

Lemma resolvePromise_absent now id s by_ st ps :
  readPromises st = (Return ps, st) ->
  List.find (hasId id) ps = None ->
  resolvePromise now id s by_ st = (Return None, st).
Proof.
  intros Hread Hi%find_None_findIndex.
  unfold resolvePromise. fs_unfold. now rewrite Hread, Hi.
Qed.

(** After the rewrite, the store holds the promises with the resolved one in
    the place of the first promise of that id. *)
Lemma readPromises_rewritten st ps index p id s by_ now :
  findIndex (hasId id) ps = Some index -> ps !! index = Some p ->
  Forall faithful ps -> faithful (resolved p s by_ now) ->
  let st' := set_promises (Some (rewritten ps index s by_ now)) st in
  readPromises st'
  = (Return (alter (fun p => resolved p s by_ now) index ps), st')
  /\ getPromiseById id st' = (Return (Some (resolved p s by_ now)), st').
Proof.
  intros Hi Hp Hall Hnew st'.
  assert (readPromises st'
          = (Return (alter (fun p => resolved p s by_ now) index ps), st')) as E.
  { unfold readPromises. rewrite readRecords_lift.
    replace (promises_jsonl st') with (Some (rewritten ps index s by_ now))
      by reflexivity.
    unfold rewritten. rewrite readContent_rewritten; [reflexivity| |].
    - apply Forall_alter; [assumption|].
      intros q Hq _. rewrite Hp in Hq. now injection Hq as <-.
    - intros E. apply (f_equal length) in E. rewrite length_alter in E.
      apply lookup_lt_Some in Hp. simpl in E. lia. }
  split; [assumption|].
  rewrite (getPromiseById_read _ _ _ E). f_equal. f_equal.
  apply (find_alter (hasId id) (fun p => resolved p s by_ now) ps index p Hi Hp).
  rewrite hasId_resolved.
  destruct (findIndex_find _ _ _ Hi) as (x & Hx & Hf).
  rewrite Hp in Hx. injection Hx as <-.
  now apply find_some in Hf as [_ ?].
Qed.

End PromiseFacts.

(** *** Resolving *)

(** C8, as amended. For a promise [p] that [getPromiseById] finds,
    [resolvePromise] returns the record of [p] with status [s] and with
    [resolvedAt] set to the clock reading of the call; the original
    [timestamp] is kept, so [resolvedAt] is at or after it exactly when the
    stored timestamp is not later than that clock reading. *)
Theorem resolvePromise_returns_resolved
    `{Json PromiseEntry} (st : FS) (now id : string) (s : PromiseStatus)
    (by_ : option string) (p : PromiseEntry) :
  getPromiseById id st = (Return (Some p), st) ->
  exists p' st',
    resolvePromise now id s by_ st = (Return (Some p'), st')
    /\ Promise.status p' = s
    /\ Promise.resolvedAt p' = Some now
    /\ Promise.timestamp p' = Promise.timestamp p
    /\ (timestamp_le (Promise.timestamp p) now = true <->
        exists t, Promise.resolvedAt p' = Some t
                  /\ timestamp_le (Promise.timestamp p') t = true).
Proof.
  intros (ps & Hread & Hfind & _)%getPromiseById_inv.
  destruct (resolvePromise_found now id s by_ st ps p Hread (eq_sym Hfind))
    as (index & _ & _ & ->).
  eexists _, _. split; [reflexivity|]. simpl. repeat split; try reflexivity.
  - intros Hle. eauto.
  - now intros (t & [= <-] & Hle).
Qed.

(** Whatever the status of the promise found, [resolvePromise] returns the
    resolved record and stores it in the place of the promise. *)
Lemma resolvePromise_stores
    `{Json PromiseEntry} (st : FS) (ps : list PromiseEntry) (now id : string)
    (s : PromiseStatus) (by_ : option string) (p : PromiseEntry) :
  readPromises st = (Return ps, st) ->
  List.find (hasId id) ps = Some p ->
  Forall faithful ps ->
  faithful (resolved p s by_ now) ->
  exists st',
    resolvePromise now id s by_ st = (Return (Some (resolved p s by_ now)), st')
    /\ getPromiseById id st' = (Return (Some (resolved p s by_ now)), st')
    /\ well_formed PromiseEntry (promises_jsonl st').
Proof.
  intros Hread Hfind Hall Hnew.
  destruct (resolvePromise_found now id s by_ st ps p Hread Hfind)
    as (index & Hi & Hp & ->).
  eexists. split; [reflexivity|]. split.
  - now apply readPromises_rewritten.
  - apply well_formed_rewritten.
    + apply Forall_alter; [assumption|].
      intros q Hq _. rewrite Hp in Hq. now injection Hq as <-.
    + intros E. apply (f_equal length) in E. rewrite length_alter in E.
      apply lookup_lt_Some in Hp. simpl in E. lia.
Qed.

(** C9. A promise whose status is already terminal is resolved again like
    any other: [resolvePromise] succeeds, returns the record with the new
    status [s], and the store then holds that record under the id. *)
Theorem resolvePromise_overwrites_terminal
    `{Json PromiseEntry} (st : FS) (ps : list PromiseEntry) (now id : string)
    (s : PromiseStatus) (by_ : option string) (p : PromiseEntry) :
  readPromises st = (Return ps, st) ->
  List.find (hasId id) ps = Some p ->
  is_terminal (Promise.status p) = true ->
  Forall faithful ps ->
  faithful (resolved p s by_ now) ->
  exists p' st',
    resolvePromise now id s by_ st = (Return (Some p'), st')
    /\ Promise.status p' = s
    /\ getPromiseById id st' = (Return (Some p'), st')
    /\ p' = resolved p s by_ now.
Proof.
  intros Hread Hfind _ Hall Hnew.
  destruct (resolvePromise_stores st ps now id s by_ p Hread Hfind Hall Hnew)
    as (st' & Hrun & Hget & _).
  exists (resolved p s by_ now), st'. auto.
Qed.

(** ** Verdicts *)

Section VerdictFacts.
Context `{Json PromiseEntry} `{Json WorkReport} `{Schema WorkReport}.

Lemma appendReport_valid (report : WorkReport) st :
  isValidReport report = true ->
  exists st1,
    appendReport report st = (Return tt, st1)
    /\ reports_jsonl st1
       = Some (default [] (reports_jsonl st) ++ stringify report ++ [nl])
    /\ promises_jsonl st1 = promises_jsonl st.
Proof.
  intros Hv. unfold appendReport.
  rewrite appendRecord_valid by assumption.
  eexists. split; [reflexivity|]. apply reports_appended.
Qed.

(** [addVerdict] once the promise has been found and the report accepted. *)
Lemma addVerdict_found uuid reportedAt resolvedAt id v reasoning agent st ps p :
  readPromises st = (Return ps, st) ->
  List.find (hasId id) ps = Some p ->
  isValidReport (verdictReport uuid reportedAt id v reasoning agent) = true ->
  exists st1,
    appendReport (verdictReport uuid reportedAt id v reasoning agent) st
    = (Return tt, st1)
    /\ addVerdict uuid reportedAt resolvedAt id v reasoning agent st
       = if bool_decide (promiseStatusOf v <> active)
         then
           match resolvePromise resolvedAt id (promiseStatusOf v) (Some uuid) st1
           with
           | (Return updated, st2) =>
               (Return (Some (verdictReport uuid reportedAt id v reasoning agent,
                              default p updated)), st2)
           | (Throw e, st2) => (Throw e, st2)
           end
         else
           (Return (Some (verdictReport uuid reportedAt id v reasoning agent, p)),
            st1).
Proof.
  intros Hread Hfind Hvalid.
  destruct (appendReport_valid _ st Hvalid) as (st1 & Happ & _).
  exists st1. split; [assumption|].
  unfold addVerdict. fold (verdictReport uuid reportedAt id v reasoning agent).
  unfold mbind at 1. unfold Fs_bind at 1.
  rewrite (getPromiseById_read id st ps Hread), Hfind.
  unfold mbind at 1. unfold Fs_bind at 1. rewrite Happ.
  destruct (bool_decide (promiseStatusOf v <> active)); reflexivity.
Qed.

End VerdictFacts.

(** C6, as amended. When [getPromiseById] finds no promise of the given id,
    [addVerdict] returns [null] -- it does not throw -- and writes nothing:
    no report is appended and the promises are left as they were. *)
Theorem addVerdict_missing_promise_returns_null
    `{Json PromiseEntry} `{Json WorkReport} `{Schema WorkReport}
    (st : FS) (uuid reportedAt resolvedAt id : string) (v : VerdictStatus)
    (reasoning : string) (agent : option string) :
  getPromiseById id st = (Return None, st) ->
  exists st',
    addVerdict uuid reportedAt resolvedAt id v reasoning agent st
    = (Return None, st')
    /\ st' = st
    /\ reports_jsonl st' = reports_jsonl st.
Proof.
  intros Hnone. exists st. split; [|auto].
  unfold addVerdict. fs_unfold. now rewrite Hnone.
Qed.

(** C1. For a promise [P] of the store (the one its id designates) and a
    verdict report that passes validation, [addVerdict] appends the line of
    a report whose verdict status is [v] and whose [promiseId] is the id of
    [P]; with [v] fulfilled or broken the promise stored under the id then
    has that status, with [v] partial the promises file is untouched and
    the promise keeps its status. *)
Theorem addVerdict_propagates
    `{Json PromiseEntry} `{Json WorkReport} `{Schema WorkReport}
    (st : FS) (ps : list PromiseEntry) (P : PromiseEntry)
    (uuid reportedAt resolvedAt : string) (v : VerdictStatus)
    (reasoning : string) (agent : option string) :
  readPromises st = (Return ps, st) ->
  List.find (hasId (Promise.id P)) ps = Some P ->
  isValidReport
    (verdictReport uuid reportedAt (Promise.id P) v reasoning agent) = true ->
  Forall faithful ps ->
  faithful (resolved P (promiseStatusOf v) (Some uuid) resolvedAt) ->
  exists (report : WorkReport) (P' : PromiseEntry) (st' : FS),
    addVerdict uuid reportedAt resolvedAt (Promise.id P) v reasoning agent st
    = (Return (Some (report, P')), st')
    /\ reports_jsonl st'
       = Some (default [] (reports_jsonl st) ++ stringify report ++ [nl])
    /\ option_map Report.status (Report.verdict report) = Some v
    /\ Report.promiseId report = Promise.id P
    /\ getPromiseById (Promise.id P) st' = (Return (Some P'), st')
    /\ match v with
       | verdict_fulfilled => Promise.status P' = fulfilled
       | verdict_broken => Promise.status P' = broken
       | verdict_partial =>
           P' = P /\ promises_jsonl st' = promises_jsonl st
       end.
Proof.
  intros Hread Hfind Hvalid Hall Hnew.
  destruct (addVerdict_found uuid reportedAt resolvedAt (Promise.id P) v
              reasoning agent st ps P Hread Hfind Hvalid)
    as (st1 & Happ & ->).
  destruct (appendReport_valid _ st Hvalid) as (st1' & Happ' & Hrep & Hprom).
  rewrite Happ in Happ'. injection Happ' as <-.
  pose proof (readPromises_moved st st1 ps Hprom Hread) as Hread1.
  exists (verdictReport uuid reportedAt (Promise.id P) v reasoning agent).
  assert (v = verdict_partial \/ promiseStatusOf v <> active) as [-> | Hterm]
    by (destruct v; [right|left|right]; (reflexivity || discriminate)).
  - exists P, st1. simpl. repeat split; try assumption.
    rewrite (getPromiseById_read _ _ _ Hread1). now rewrite Hfind.
  - rewrite bool_decide_eq_true_2 by assumption.
    destruct (resolvePromise_found resolvedAt (Promise.id P) (promiseStatusOf v)
                (Some uuid) st1 ps P Hread1 Hfind) as (index & Hi & Hp & ->).
    eexists _, _. split; [reflexivity|]. simpl.
    split; [assumption|]. split; [reflexivity|]. split; [reflexivity|].
    split.
    + now apply readPromises_rewritten.
    + destruct v; simpl; try reflexivity. now destruct Hterm.
Qed.

(** ** Lookup by reference *)

Lemma prefix_refl (s : string) : String.prefix s s = true.
Proof.
  induction s as [|c s IH]; simpl; [reflexivity|].
  destruct (Ascii.ascii_dec c c); [assumption|contradiction].
Qed.

(** Whether a promise matches a reference depends on its id only. *)
Lemma matchesRef_same_id ref p q :
  Promise.id p = Promise.id q -> matchesRef ref p = matchesRef ref q.
Proof. unfold matchesRef. now intros ->. Qed.

(** The promise that the lookup by reference selects is the one that the
    lookup by its own id selects. *)
Lemma findByRef_find_own_id ref ps c :
  findByRef ref ps = Some c -> List.find (hasId (Promise.id c)) ps = Some c.
Proof.
  unfold findByRef. induction ps as [|x l IH]; simpl; [discriminate|].
  destruct (matchesRef ref x) eqn:Hx.
  - intros [= ->]. unfold hasId. now rewrite String.eqb_refl.
  - intros Hc. unfold hasId at 1.
    destruct (String.eqb_spec (Promise.id x) (Promise.id c)) as [E|E];
      [|now apply IH].
    apply find_some in Hc as [_ Hc].
    rewrite (matchesRef_same_id ref x c E) in Hx. congruence.
Qed.

(** Before the first match, nothing matches. *)
Lemma find_first {A} (f : A -> bool) (l : list A) (i : nat) :
  findIndex f l = Some i ->
  forall j x, j < i -> l !! j = Some x -> f x = false.
Proof.
  revert i. induction l as [|y l IH]; simpl; intros i; [discriminate|].
  destruct (f y) eqn:Hy.
  - intros [= <-] j x Hj. lia.
  - destruct (findIndex f l) as [k|]; simpl; [|discriminate].
    intros [= <-] [|j] x Hj; simpl.
    + now intros [= <-].
    + apply (IH k eq_refl). lia.
Qed.

Lemma alter_as_insert {A} (g : A -> A) (i : nat) (l : list A) (x : A) :
  l !! i = Some x -> alter g i l = <[i := g x]> l.
Proof.
  intros Hx. rewrite list_insert_alter. apply list_alter_ext; [|reflexivity].
  intros y Hy. rewrite Hx in Hy. now injection Hy as <-.
Qed.

(** C2, as amended. When two or more promises of the store have an id that
    equals or starts with the reference, the lookup of [promise resolve]
    raises no ambiguity error: it selects the first of them in store order,
    and the command resolves that promise: it returns the record of that
    promise with the new status and rewrites the promises file with the
    record in its place, the first place of the store that the reference
    matches, leaving the other two files alone.  When the codec is faithful
    on the promises, the store then reads as before with that one record
    replaced, so the other candidates are as they were. *)
Theorem ambiguous_prefix_selects_first
    `{Json PromiseEntry} (st : FS) (promises : list PromiseEntry)
    (ref now : string) (status : PromiseStatus)
    (c1 c2 : PromiseEntry) (cs : list PromiseEntry) :
  readPromises st = (Return promises, st) ->
  List.filter (matchesRef ref) promises = c1 :: c2 :: cs ->
  status ∈ [fulfilled; broken; withdrawn] ->
  findByRef ref promises = Some c1
  /\ promiseResolveCommand now ref status st
     = resolvePromise now (Promise.id c1) status None st
  /\ exists index st',
       promiseResolveCommand now ref status st
       = (Return (Some (resolved c1 status None now)), st')
       /\ promises !! index = Some c1
       /\ (forall j q, j < index -> promises !! j = Some q ->
           matchesRef ref q = false)
       /\ promises_jsonl st' = Some (rewritten promises index status None now)
       /\ ledger_jsonl st' = ledger_jsonl st
       /\ reports_jsonl st' = reports_jsonl st
       /\ (Forall faithful promises ->
           faithful (resolved c1 status None now) ->
           readPromises st'
           = (Return (<[index := resolved c1 status None now]> promises), st')).
Proof.
  intros Hread Hcands Hstatus.
  assert (findByRef ref promises = Some c1) as Hfind.
  { unfold findByRef. now rewrite find_head_filter, Hcands. }
  assert (promiseResolveCommand now ref status st
          = resolvePromise now (Promise.id c1) status None st) as Hcmd.
  { unfold promiseResolveCommand.
    rewrite bool_decide_eq_true_2 by assumption. simpl.
    unfold mbind at 1. unfold Fs_bind at 1. now rewrite Hread, Hfind. }
  split; [assumption|]. split; [assumption|].
  pose proof (findByRef_find_own_id _ _ _ Hfind) as Hown.
  destruct (resolvePromise_found now (Promise.id c1) status None st promises c1
              Hread Hown) as (index & Hi & Hp & Hrun).
  exists index. eexists. split; [now rewrite Hcmd, Hrun|].
  split; [assumption|]. split; [|split; [reflexivity|]].
  - intros j q Hj Hq.
    destruct (matchesRef ref q) eqn:Hm; [|reflexivity]. exfalso.
    unfold findByRef in Hfind.
    destruct (find_findIndex _ _ _ Hfind) as (k & Hk & Hk1 & _).
    pose proof (find_first _ _ _ Hk j q) as Hfirst.
    destruct (Nat.lt_ge_cases j k) as [Hlt|Hge].
    + rewrite (Hfirst Hlt Hq) in Hm. discriminate.
    + assert (k < index) as Hlt by lia.
      pose proof (find_first _ _ _ Hi k c1 Hlt Hk1) as Hno.
      unfold hasId in Hno. now rewrite String.eqb_refl in Hno.
  - split; [reflexivity|]. split; [reflexivity|].
    intros Hall Hnew.
    destruct (readPromises_rewritten st promises index c1 (Promise.id c1)
                status None now Hi Hp Hall Hnew) as [-> _].
    now rewrite (alter_as_insert _ _ _ _ Hp).
Qed.

(** ** Conflict detection *)

Lemma touches_iff file e :
  touches file e = true <->
  exists a, a ∈ Entry.artifacts e /\ Entry.path a = file.
Proof.
  unfold touches. rewrite existsb_exists. split.
  - intros (a & Ha & Hp). exists a. split; [now apply list_elem_of_In|].
    now apply String.eqb_eq.
  - intros (a & Ha & Hp). exists a. split; [now apply list_elem_of_In|].
    now apply String.eqb_eq.
Qed.

Lemma firstOtherIntent_NoConflict intent l :
  firstOtherIntent intent l = NoConflict <->
  Forall (fun e => Entry.intent (Entry.reasoning e) = intent) l.
Proof.
  induction l as [|e l IH]; simpl.
  - split; [constructor|reflexivity].
  - destruct (String.eqb_spec (Entry.intent (Entry.reasoning e)) intent) as [E|E];
      simpl.
    + rewrite IH. split; [now constructor|now inversion 1].
    + split; [discriminate|]. inversion 1; contradiction.
Qed.

Lemma firstOtherIntent_Conflict intent l e i :
  firstOtherIntent intent l = Conflict e i <->
  exists pre post,
    l = pre ++ e :: post
    /\ Forall (fun x => Entry.intent (Entry.reasoning x) = intent) pre
    /\ Entry.intent (Entry.reasoning e) <> intent
    /\ i = Entry.intent (Entry.reasoning e).
Proof.
  induction l as [|x l IH]; simpl.
  - split; [discriminate|]. intros (pre & post & E & _). now destruct pre.
  - destruct (String.eqb_spec (Entry.intent (Entry.reasoning x)) intent) as [E|E];
      simpl.
    + rewrite IH. split.
      * intros (pre & post & -> & Hpre & Hne & ->).
        exists (x :: pre), post. repeat split; auto.
      * intros (pre & post & El & Hpre & Hne & ->).
        destruct pre as [|y pre]; simpl in El; injection El as -> ->.
        -- contradiction.
        -- exists pre, post. inversion Hpre. auto.
    + split.
      * intros [= <- <-]. exists [], l. repeat split; auto.
      * intros (pre & post & El & Hpre & Hne & ->).
        destruct pre as [|y pre]; simpl in El; injection El as -> ->.
        -- reflexivity.
        -- inversion Hpre. contradiction.
Qed.

(** C3, as amended. [detectConflict] scans the five most recent entries
    that have an artifact whose path is exactly the file path, oldest
    first.  It returns no conflict exactly when every scanned entry has the
    proposed intent, and otherwise the first scanned entry of another intent
    together with that intent. *)
Theorem detectConflict_scans_exact_paths
    (file intent : string) (ledger : list LedgerEntry) :
  scanned file ledger
  = drop (length (List.filter (touches file) ledger) - 5)
         (List.filter (touches file) ledger)
  /\ (forall e, touches file e = true <->
                exists a, a ∈ Entry.artifacts e /\ Entry.path a = file)
  /\ (detectConflict file intent ledger = NoConflict <->
      Forall (fun e => Entry.intent (Entry.reasoning e) = intent)
             (scanned file ledger))
  /\ (forall e i,
        detectConflict file intent ledger = Conflict e i <->
        exists pre post,
          scanned file ledger = pre ++ e :: post
          /\ Forall (fun x => Entry.intent (Entry.reasoning x) = intent) pre
          /\ Entry.intent (Entry.reasoning e) <> intent
          /\ i = Entry.intent (Entry.reasoning e)).
Proof.
  split; [|split; [|split]].
  - unfold scanned. now rewrite (js_slice_from_last 5) by lia.
  - intros e. apply touches_iff.
  - apply firstOtherIntent_NoConflict.
  - intros e i. apply firstOtherIntent_Conflict.
Qed.

(** ** Appending, then reading *)

Section AppendRead.
Context {R : Type} `{Json R} `{Schema R}.
Variable file : FS -> option text.
Variable set_file : option text -> FS -> FS.
Variable what : string.
Hypothesis file_set : forall c st, file (set_file c st) = c.
Hypothesis file_mkdir : forall st, file (mkdir st) = file st.

Lemma appendRecord_then_read (st : FS) (r : R) :
  well_formed R (file st) -> isValid r = true -> faithful r ->
  exists old st',
    readRecords file st = (Return old, st)
    /\ appendRecord file set_file what r st = (Return tt, st')
    /\ readRecords file st' = (Return (old ++ [r]), st')
    /\ well_formed R (file st').
Proof.
  intros Hwf Hvalid Hr.
  destruct (readContent_well_formed _ Hwf) as [old Hold].
  exists old. eexists. split; [|split; [now apply appendRecord_valid|]].
  - rewrite readRecords_lift, Hold. reflexivity.
  - rewrite readRecords_lift. unfold appendFile. rewrite !file_set.
    assert (file (if dir st then st else mkdir st) = file st) as ->
      by (destruct (dir st); [reflexivity|apply file_mkdir]).
    destruct (readContent_appended _ _ r Hwf Hold Hr) as [-> Hwf'].
    split; [reflexivity|assumption].
Qed.

(** The same on any terminated file that is readable, blank lines and
    all. *)
Lemma appendRecord_then_read_line (st : FS) (old : list R) (r : R) :
  terminated R (file st) ->
  readRecords file st = (Return old, st) ->
  isValid r = true -> faithful r ->
  exists st',
    appendRecord file set_file what r st = (Return tt, st')
    /\ readRecords file st' = (Return (old ++ [r]), st')
    /\ terminated R (file st').
Proof.
  intros Htakes [Hold _]%readRecords_Return Hvalid Hr.
  eexists. split; [now apply appendRecord_valid|].
  rewrite readRecords_lift. unfold appendFile. rewrite !file_set.
  assert (file (if dir st then st else mkdir st) = file st) as ->
    by (destruct (dir st); [reflexivity|apply file_mkdir]).
  destruct (readContent_appended_line _ _ r Htakes Hold Hr) as [-> Htakes'].
  split; [reflexivity|assumption].
Qed.

(** A line that does not parse aborts the read, whatever precedes and
    follows it; the number thrown is its rank among the non-blank lines. *)
Lemma readRecords_aborts (st : FS) (content : text) good bad rest :
  file st = Some content ->
  nonblank_lines content = good ++ bad :: rest ->
  Forall (fun l => is_Some (parse (R:=R) l)) good ->
  parse (R:=R) bad = None ->
  readRecords file st = (Throw (InvalidJson (length good + 1)), st).
Proof.
  intros Hfile Hlines Hgood Hbad. unfold readRecords.
  rewrite Hfile, Hlines. now rewrite parseLines_throws.
Qed.

End AppendRead.

Lemma split_nl_unlines (ls : list text) :
  Forall (fun l => one_line l = true) ls -> split_nl (unlines ls) = ls ++ [[]].
Proof.
  induction 1 as [|l ls Hl _ IH]; [reflexivity|].
  change (unlines (l :: ls)) with ((l ++ [nl]) ++ unlines ls).
  rewrite <- app_assoc. simpl. rewrite split_nl_app by assumption.
  now rewrite IH.
Qed.

(** In a file without blank lines, the rank of a line among the non-blank
    lines is its line number. *)
Lemma file_line_unlines (good rest : list text) (bad : text) :
  Forall (fun l => clean_line l = true) (good ++ bad :: rest) ->
  nonblank_lines (unlines (good ++ bad :: rest)) = good ++ bad :: rest
  /\ file_line (unlines (good ++ bad :: rest)) (length good + 1) = Some bad.
Proof.
  intros Hall. split; [now apply nonblank_lines_unlines|].
  rewrite Nat.add_1_r. simpl. rewrite split_nl_unlines.
  - rewrite <- app_assoc. rewrite lookup_app_r by lia.
    now rewrite Nat.sub_diag.
  - eapply Forall_impl; [eassumption|].
    intros l Hl. now apply clean_line_inv in Hl as [? _].
Qed.

(** C7, as amended. When the ledger file is terminated -- absent, blank or
    ending with a line feed, its last record line parsing the same with the
    white space that ends it -- and [readLedger] returns, then after
    [appendEntry] of a valid entry on which the codec is faithful
    [readLedger] returns the entries it returned before followed by that
    entry, whatever the other two files hold, and the file is terminated
    again; likewise for [appendPromise] and [readPromises], and for
    [appendReport] and [readReports]. *)
Theorem append_then_read_contains
    `{Json LedgerEntry} `{Schema LedgerEntry}
    `{Json PromiseEntry} `{Schema PromiseEntry}
    `{Json WorkReport} `{Schema WorkReport} (st : FS) :
  (forall (e : LedgerEntry) (old : list LedgerEntry),
      terminated LedgerEntry (ledger_jsonl st) ->
      readLedger st = (Return old, st) ->
      isValidEntry e = true -> faithful e ->
      exists l st',
        appendEntry e st = (Return tt, st')
        /\ readLedger st' = (Return l, st')
        /\ l = old ++ [e] /\ e ∈ l
        /\ terminated LedgerEntry (ledger_jsonl st'))
  /\ (forall (p : PromiseEntry) (old : list PromiseEntry),
      terminated PromiseEntry (promises_jsonl st) ->
      readPromises st = (Return old, st) ->
      isValidPromise p = true -> faithful p ->
      exists l st',
        appendPromise p st = (Return tt, st')
        /\ readPromises st' = (Return l, st')
        /\ l = old ++ [p] /\ p ∈ l
        /\ terminated PromiseEntry (promises_jsonl st'))
  /\ (forall (r : WorkReport) (old : list WorkReport),
      terminated WorkReport (reports_jsonl st) ->
      readReports st = (Return old, st) ->
      isValidReport r = true -> faithful r ->
      exists l st',
        appendReport r st = (Return tt, st')
        /\ readReports st' = (Return l, st')
        /\ l = old ++ [r] /\ r ∈ l
        /\ terminated WorkReport (reports_jsonl st')).
Proof.
  split; [|split].
  - intros e old Hterm Hold Hvalid He.
    destruct (appendRecord_then_read_line ledger_jsonl set_ledger "entry"
                (fun _ _ => eq_refl) (fun _ => eq_refl) st old e
                Hterm Hold Hvalid He) as (st' & Happ & Hnew & Hterm').
    exists (old ++ [e]), st'. repeat split; try assumption.
    apply elem_of_app. right. apply list_elem_of_singleton. reflexivity.
  - intros p old Hterm Hold Hvalid Hp.
    destruct (appendRecord_then_read_line promises_jsonl set_promises "promise"
                (fun _ _ => eq_refl) (fun _ => eq_refl) st old p
                Hterm Hold Hvalid Hp) as (st' & Happ & Hnew & Hterm').
    exists (old ++ [p]), st'. repeat split; try assumption.
    apply elem_of_app. right. apply list_elem_of_singleton. reflexivity.
  - intros r old Hterm Hold Hvalid Hr.
    destruct (appendRecord_then_read_line reports_jsonl set_reports "report"
                (fun _ _ => eq_refl) (fun _ => eq_refl) st old r
                Hterm Hold Hvalid Hr) as (st' & Happ & Hnew & Hterm').
    exists (old ++ [r]), st'. repeat split; try assumption.
    apply elem_of_app. right. apply list_elem_of_singleton. reflexivity.
Qed.

(** ** A malformed line aborts the read *)

(** Whatever the file, the first non-blank line that does not parse makes
    [readLedger] and [readLastN] throw: no entry is returned.  The number
    thrown is the rank of that line among the non-blank lines, which in a
    file without blank lines is its line number ([file_line_unlines]). *)
Lemma readLedger_aborts `{Json LedgerEntry} (st : FS) (content : text)
    (good rest : list text) (bad : text) (n : Z) :
  ledger_jsonl st = Some content ->
  nonblank_lines content = good ++ bad :: rest ->
  Forall (fun l => is_Some (parse (R:=LedgerEntry) l)) good ->
  parse (R:=LedgerEntry) bad = None ->
  readLedger st = (Throw (InvalidJson (length good + 1)), st)
  /\ readLastN n st = (Throw (InvalidJson (length good + 1)), st).
Proof.
  intros Hfile Hlines Hgood Hbad.
  assert (readLedger st = (Throw (InvalidJson (length good + 1)), st)) as E
    by (unfold readLedger; eapply readRecords_aborts; eassumption).
  split; [assumption|]. unfold readLastN. fs_unfold. now rewrite E.
Qed.

(** * Further properties of the stores *)

(** ** Blank and absent files *)

Lemma readContent_blank {R} `{Json R} (file : option text) :
  blank_file file -> readContent (R:=R) file = inr [].
Proof.
  destruct file as [content|]; simpl; [|reflexivity].
  intros Hc. now rewrite nonblank_lines_blank.
Qed.

(** X1. An absent ledger file, or one with nothing but white space in it, is an
    empty ledger for every reader: [readLedger] returns no entry,
    [validateLedger] finds it valid, and [generateSummary] returns the empty
    summary, whatever the window. *)
Theorem blank_ledger_is_empty
    `{Json LedgerEntry} `{Schema LedgerEntry} (st : FS) (lastN : option Z) :
  blank_file (ledger_jsonl st) ->
  readLedger st = (Return [], st)
  /\ validateLedger st
     = (Return {| Validation.valid := true; Validation.errors := [] |}, st)
  /\ generateSummary lastN st = (Return emptySummary, st).
Proof.
  intros Hblank.
  assert (readLedger st = (Return [], st)) as Hread.
  { unfold readLedger. rewrite readRecords_lift, readContent_blank by assumption.
    reflexivity. }
  split; [assumption|]. split.
  - unfold validateLedger, validateRecords.
    destruct (ledger_jsonl st) as [content|]; [|reflexivity].
    simpl in Hblank. now rewrite nonblank_lines_blank.
  - unfold generateSummary, readLastN. fs_unfold. rewrite Hread.
    unfold js_slice_from. rewrite drop_nil. reflexivity.
Qed.

(** ** The window of [readLastN] *)

Lemma js_slice_from_nonneg {A} (k : nat) (l : list A) :
  js_slice_from (Z.of_nat k) l = drop k l.
Proof.
  unfold js_slice_from.
  destruct (Z.ltb_spec (Z.of_nat k) 0) as [|_]; [lia|].
  destruct (Nat.le_gt_cases k (length l)).
  - f_equal. lia.
  - rewrite !drop_ge by lia. reflexivity.
Qed.

(** X2. On a readable ledger, [readLastN] with a positive [n] returns the [n]
    most recent entries in ledger order, all of them when there are fewer;
    with a negative [n] it returns the ledger without its [-n] oldest
    entries. *)
Theorem readLastN_window
    `{Json LedgerEntry} (st : FS) (entries : list LedgerEntry) (n : nat) :
  readLedger st = (Return entries, st) ->
  0 < n ->
  (exists window,
      readLastN (Z.of_nat n) st = (Return window, st)
      /\ window = drop (length entries - n) entries
      /\ length window = Nat.min n (length entries)
      /\ window `suffix_of` entries)
  /\ readLastN (- Z.of_nat n) st = (Return (drop n entries), st).
Proof.
  intros Hread Hn. unfold readLastN. fs_unfold. rewrite Hread. split.
  - exists (drop (length entries - n) entries).
    rewrite js_slice_from_last by assumption.
    split; [reflexivity|]. split; [reflexivity|]. split.
    + rewrite length_drop. lia.
    + apply suffix_drop.
  - rewrite Z.opp_involutive, js_slice_from_nonneg. reflexivity.
Qed.

(** ** Validation *)

Section ValidateFacts.
Context {R : Type} `{Json R} `{Schema R}.
Implicit Types (ls : list text) (rs : list R).

Lemma validateLines_app i ls1 ls2 :
  validateLines i (ls1 ++ ls2)
  = validateLines i ls1 ++ validateLines (i + length ls1) ls2.
Proof.
  revert i. induction ls1 as [|l ls1 IH]; intros i; simpl.
  - now rewrite Nat.add_0_r.
  - rewrite IH, <- app_assoc. do 3 f_equal. lia.
Qed.

(** No finding: every line parses to a record that the schema accepts, and
    [parseLines] returns those records. *)
Lemma validateLines_clean i ls :
  validateLines (R:=R) i ls = [] ->
  exists rs, parseLines i ls = inr rs
             /\ Forall (fun r => isValid r = true) rs
             /\ length rs = length ls.
Proof.
  revert i. induction ls as [|l ls IH]; intros i; simpl.
  - intros _. exists []. auto.
  - intros [Hl Hrest]%app_eq_nil.
    destruct (parse l) as [r|]; [|discriminate].
    destruct (isValid r) eqn:Hr; [|discriminate].
    destruct (IH _ Hrest) as (rs & -> & Hall & Hlen).
    exists (r :: rs). simpl. auto.
Qed.

(** The line at which [parseLines] gives up is among the findings. *)
Lemma validateLines_reports_throw i ls k :
  parseLines (R:=R) i ls = inl (InvalidJson k) ->
  InvalidJsonAt k ∈ validateLines (R:=R) i ls.
Proof.
  revert i. induction ls as [|l ls IH]; intros i; simpl; [discriminate|].
  destruct (parse l) as [r|].
  - destruct (parseLines (S i) ls) as [e|rs] eqn:E; [|discriminate].
    intros [= ->]. apply elem_of_app. right. now apply IH.
  - intros [= <-]. apply elem_of_app. left. apply list_elem_of_here.
Qed.

Lemma parseLines_only_InvalidJson i ls e :
  parseLines (R:=R) i ls = inl e -> exists k, e = InvalidJson k.
Proof.
  revert i. induction ls as [|l ls IH]; intros i; simpl; [discriminate|].
  destruct (parse l) as [r|].
  - destruct (parseLines (S i) ls) as [e'|rs] eqn:E; [|discriminate].
    intros [= <-]. eauto.
  - intros [= <-]. eauto.
Qed.

End ValidateFacts.

(** X3. [validateLedger] never throws and leaves the files alone.  When it finds
    the ledger valid, [readLedger] returns, every entry it returns passes
    the schema, and the [validate] command prints their number; when
    [readLedger] throws for a line, [validateLedger] is not valid and lists a
    JSON finding for that very line. *)
Theorem validateLedger_agrees_with_readLedger
    `{Json LedgerEntry} `{Schema LedgerEntry} (st : FS) :
  exists v,
    validateLedger st = (Return v, st)
    /\ (Validation.valid v = true <-> Validation.errors v = [])
    /\ (Validation.valid v = true ->
        exists entries,
          readLedger st = (Return entries, st)
          /\ Forall (fun e => isValidEntry e = true) entries
          /\ validateCommand st = (Return (length entries), st))
    /\ (forall e, readLedger st = (Throw e, st) ->
        exists k, e = InvalidJson k
                  /\ Validation.valid v = false
                  /\ InvalidJsonAt k ∈ Validation.errors v).
Proof.
  unfold validateCommand, validateLedger, validateRecords, readLedger,
    readRecords.
  destruct (ledger_jsonl st) as [content|] eqn:Hfile.
  - eexists. split; [reflexivity|]. simpl.
    set (issues := validateLines 0 (nonblank_lines content)).
    assert (Nat.eqb (length issues) 0 = true <-> issues = []) as Hnil.
    { rewrite Nat.eqb_eq. split; [apply nil_length_inv|now intros ->]. }
    split; [exact Hnil|]. split.
    + intros Hv. apply Hnil in Hv.
      destruct (validateLines_clean _ _ Hv) as (rs & Hrs & Hall & _).
      exists rs. rewrite Hrs. split; [reflexivity|]. split; [assumption|].
      fs_unfold. rewrite Hfile. fold issues. rewrite Hv. simpl.
      now rewrite Hfile, Hrs.
    + intros e He.
      destruct (parseLines 0 (nonblank_lines content)) as [e'|rs] eqn:E;
        [|discriminate].
      injection He as ->.
      destruct (parseLines_only_InvalidJson _ _ _ E) as [k ->].
      exists k. split; [reflexivity|].
      pose proof (validateLines_reports_throw _ _ _ E) as Hin.
      split; [|exact Hin].
      destruct (Nat.eqb (length issues) 0) eqn:Hz; [|reflexivity].
      apply Nat.eqb_eq, nil_length_inv in Hz. fold issues in Hin.
      rewrite Hz in Hin.
      now apply not_elem_of_nil in Hin.
  - eexists. split; [reflexivity|]. simpl. split; [tauto|]. split.
    + intros _. exists []. split; [reflexivity|]. split; [constructor|].
      fs_unfold. rewrite Hfile. simpl. now rewrite Hfile.
    + intros e [=].
Qed.

(** X4. [appendEntry] keeps a valid ledger valid: on a well-formed ledger that
    [validateLedger] accepts, after the append of a valid entry on which the
    codec is faithful, [validateLedger] still finds nothing. *)
Theorem appendEntry_keeps_ledger_valid
    `{Json LedgerEntry} `{Schema LedgerEntry} (st : FS) (v : Validation.t)
    (e : LedgerEntry) :
  well_formed LedgerEntry (ledger_jsonl st) ->
  validateLedger st = (Return v, st) ->
  Validation.valid v = true ->
  isValidEntry e = true ->
  faithful e ->
  exists st',
    appendEntry e st = (Return tt, st')
    /\ validateLedger st'
       = (Return {| Validation.valid := true; Validation.errors := [] |}, st').
Proof.
  intros Hwf Hval Hv He [Hparse Hclean].
  unfold appendEntry. rewrite appendRecord_valid by assumption.
  eexists. split; [reflexivity|].
  unfold validateLedger, validateRecords in *. rewrite ledger_appended.
  assert (exists lines : list text,
    default [] (ledger_jsonl st) = unlines lines
    /\ Forall (fun l => clean_line l = true) lines
    /\ validateLines (R:=LedgerEntry) 0 lines = []) as (lines & -> & Hall & Hnone).
  { destruct (ledger_jsonl st) as [content|]; simpl in *.
    - destruct Hwf as (lines & -> & Hall).
      assert (Forall (fun l => clean_line l = true) lines) as Hcl
        by (eapply Forall_impl; [eassumption|]; now intros l [? _]).
      exists lines. split; [reflexivity|]. split; [assumption|].
      rewrite nonblank_lines_unlines in Hval by assumption.
      injection Hval as <-. simpl in Hv.
      apply Nat.eqb_eq in Hv. now apply nil_length_inv.
    - exists []. auto. }
  rewrite <- unlines_snoc, nonblank_lines_unlines
    by (apply Forall_app; split; [assumption|now repeat constructor]).
  rewrite validateLines_app, Hnone. simpl.
  rewrite Hparse. unfold isValidEntry in He. rewrite He. reflexivity.
Qed.

(** ** The summary of the ledger *)

Lemma distinct_elem (x : string) (l : list string) : x ∈ distinct l <-> x ∈ l.
Proof.
  induction l as [|y l IH]; simpl; [reflexivity|].
  rewrite !elem_of_cons, <- IH, !list_elem_of_In, filter_In.
  rewrite negb_true_iff, String.eqb_neq.
  destruct (decide (x = y)); tauto.
Qed.

Lemma NoDup_List_filter {A} (f : A -> bool) (l : list A) :
  NoDup l -> NoDup (List.filter f l).
Proof.
  rewrite !NoDup_ListNoDup. apply List.NoDup_filter.
Qed.

Lemma distinct_NoDup (l : list string) : NoDup (distinct l).
Proof.
  induction l as [|y l IH]; simpl; [constructor|].
  constructor.
  - rewrite list_elem_of_In, filter_In, negb_true_iff, String.eqb_neq. tauto.
  - now apply NoDup_List_filter.
Qed.

Lemma js_slice_from_last_length {A} (n : nat) (l : list A) :
  0 < n -> length (js_slice_from (- Z.of_nat n) l) <= n.
Proof.
  intros Hn. rewrite js_slice_from_last by assumption.
  rewrite length_drop. lia.
Qed.

(** X5. On a readable ledger [generateSummary] returns, whatever the window
    asked for, and leaves the files alone.  Its lists are bounded and free
    of duplicates: at most 20 recent files, at most 10 key decisions, no
    agent and no file twice.  It is either the empty summary or counts the
    entries of the whole ledger, not of the window. *)
Theorem generateSummary_bounded
    `{Json LedgerEntry} (st : FS) (all : list LedgerEntry) (lastN : option Z) :
  readLedger st = (Return all, st) ->
  exists s,
    generateSummary lastN st = (Return s, st)
    /\ length (recentFiles s) <= 20
    /\ length (keyDecisions s) <= 10
    /\ NoDup (recentAgents s)
    /\ NoDup (recentFiles s)
    /\ (s = emptySummary \/ totalEntries s = length all).
Proof.
  intros Hread. unfold generateSummary, readLastN. fs_unfold. rewrite Hread.
  destruct (last (js_slice_from (- default 20%Z lastN) all)) as [e|].
  - rewrite Hread. eexists. split; [reflexivity|]. simpl.
    split; [rewrite length_take; lia|].
    split; [apply (js_slice_from_last_length 10); lia|].
    split; [apply distinct_NoDup|].
    split; [|now right].
    eapply sublist_NoDup; [apply distinct_NoDup|apply sublist_take].
  - exists emptySummary. split; [reflexivity|]. simpl.
    split; [lia|]. split; [lia|]. split; [constructor|].
    split; [constructor|]. now left.
Qed.

Lemma js_slice_from_last_snoc {A} (n : Z) (l : list A) (x : A) :
  (0 < n)%Z ->
  exists k, k <= length l
            /\ js_slice_from (- n) (l ++ [x]) = drop k l ++ [x].
Proof.
  intros Hn. replace n with (Z.of_nat (Z.to_nat n)) by lia.
  rewrite js_slice_from_last by lia. rewrite length_app. simpl.
  exists (length l + 1 - Z.to_nat n). split; [lia|].
  rewrite drop_app_le by lia. reflexivity.
Qed.

(** X6. After [appendEntry] of a valid entry to a well-formed ledger, the
    summary over any positive window (20 by default) counts one entry more
    than the ledger had, is dated by the timestamp of the new entry, and
    lists its agent. *)
Theorem generateSummary_after_appendEntry
    `{Json LedgerEntry} `{Schema LedgerEntry} (st : FS) (e : LedgerEntry)
    (lastN : option Z) :
  well_formed LedgerEntry (ledger_jsonl st) ->
  isValidEntry e = true ->
  faithful e ->
  (0 < default 20 lastN)%Z ->
  exists old st' s,
    readLedger st = (Return old, st)
    /\ appendEntry e st = (Return tt, st')
    /\ generateSummary lastN st' = (Return s, st')
    /\ totalEntries s = S (length old)
    /\ lastUpdated s = Entry.timestamp e
    /\ Entry.name (Entry.agent e) ∈ recentAgents s.
Proof.
  intros Hwf Hvalid He Hn.
  destruct (appendRecord_then_read ledger_jsonl set_ledger "entry"
              (fun _ _ => eq_refl) (fun _ => eq_refl) st e Hwf Hvalid He)
    as (old & st' & Hold & Happ & Hnew & _).
  destruct (js_slice_from_last_snoc (default 20%Z lastN) old e Hn)
    as (k & Hk & Hwindow).
  exists old, st'. eexists. split; [exact Hold|]. split; [exact Happ|].
  fold readLedger in Hnew.
  unfold generateSummary, readLastN. fs_unfold. rewrite Hnew, Hwindow.
  rewrite last_snoc, Hnew. split; [reflexivity|]. simpl.
  split; [rewrite length_app; simpl; lia|]. split; [reflexivity|].
  apply distinct_elem. rewrite map_app. apply elem_of_app. right.
  apply list_elem_of_here.
Qed.

(** ** More on promises *)

Lemma hasId_supersededWith id p new now :
  hasId id (supersededWith p new now) = hasId id p.
Proof. reflexivity. Qed.

Section PromiseUpdates.
Context `{Json PromiseEntry}.

(** Reading back the file written for an update [g] of the first promise of
    an id, when [g] keeps the id. *)
Lemma readPromises_after_alter st ps index p id
    (g : PromiseEntry -> PromiseEntry) :
  findIndex (hasId id) ps = Some index -> ps !! index = Some p ->
  hasId id (g p) = hasId id p ->
  Forall faithful ps -> faithful (g p) ->
  let st' :=
    set_promises (Some (join_nl (map stringify (alter g index ps)) ++ [nl])) st in
  readPromises st' = (Return (<[index := g p]> ps), st')
  /\ getPromiseById id st' = (Return (Some (g p)), st').
Proof.
  intros Hi Hp Hid Hall Hnew st'.
  assert (readPromises st' = (Return (alter g index ps), st')) as E.
  { unfold readPromises. rewrite readRecords_lift.
    replace (promises_jsonl st')
      with (Some (join_nl (map stringify (alter g index ps)) ++ [nl]))
      by reflexivity.
    rewrite readContent_rewritten; [reflexivity| |].
    - apply Forall_alter; [assumption|].
      intros q Hq _. rewrite Hp in Hq. now injection Hq as <-.
    - intros E. apply (f_equal length) in E. rewrite length_alter in E.
      apply lookup_lt_Some in Hp. simpl in E. lia. }
  split; [rewrite E; now rewrite (alter_as_insert g index ps p Hp)|].
  rewrite (getPromiseById_read _ _ _ E). f_equal. f_equal.
  apply (find_alter (hasId id) g ps index p Hi Hp).
  rewrite Hid.
  destruct (findIndex_find _ _ _ Hi) as (x & Hx & Hf).
  rewrite Hp in Hx. injection Hx as <-.
  now apply find_some in Hf as [_ ?].
Qed.

Lemma supersedePromise_found now id new st ps p :
  readPromises st = (Return ps, st) ->
  List.find (hasId id) ps = Some p ->
  exists index,
    findIndex (hasId id) ps = Some index /\ ps !! index = Some p
    /\ supersedePromise now id new st
       = (Return (Some (supersededWith p new now)),
          set_promises
            (Some (join_nl (map stringify
                     (alter (fun p => supersededWith p new now) index ps))
                   ++ [nl])) st).
Proof.
  intros Hread (index & Hi & Hp & Hid)%find_findIndex.
  exists index. split; [assumption|]. split; [assumption|].
  unfold supersedePromise. fs_unfold. rewrite Hread, Hi.
  unfold rewriteRecords, modify. f_equal. f_equal.
  rewrite list_lookup_alter_eq, Hp. reflexivity.
Qed.

End PromiseUpdates.

(** X7. For an id that no promise of the store has, [resolvePromise],
    [withdrawPromise] and [supersedePromise] return [null] and leave every
    file as it was. *)
Theorem missing_promise_is_not_updated
    `{Json PromiseEntry} (st : FS) (now id new : string) (s : PromiseStatus)
    (by_ : option string) :
  getPromiseById id st = (Return None, st) ->
  resolvePromise now id s by_ st = (Return None, st)
  /\ withdrawPromise now id st = (Return None, st)
  /\ supersedePromise now id new st = (Return None, st).
Proof.
  intros (ps & Hread & Hfind & _)%getPromiseById_inv. symmetry in Hfind.
  split; [now apply (resolvePromise_absent _ _ _ _ _ ps)|].
  split; [now apply (resolvePromise_absent _ _ _ _ _ ps)|].
  apply find_None_findIndex in Hfind.
  unfold supersedePromise. fs_unfold. now rewrite Hread, Hfind.
Qed.

(** X8. [resolvePromise] changes one record and nothing else: the store then
    reads as the promises it had, in the same order and number, with the
    resolved record in the place of the first promise of the id, which no
    earlier promise shares. *)
Theorem resolvePromise_changes_one_record
    `{Json PromiseEntry} (st : FS) (ps : list PromiseEntry) (now id : string)
    (s : PromiseStatus) (by_ : option string) (p : PromiseEntry) :
  readPromises st = (Return ps, st) ->
  List.find (hasId id) ps = Some p ->
  Forall faithful ps ->
  faithful (resolved p s by_ now) ->
  exists index st',
    resolvePromise now id s by_ st = (Return (Some (resolved p s by_ now)), st')
    /\ ps !! index = Some p
    /\ (forall j q, j < index -> ps !! j = Some q -> Promise.id q <> id)
    /\ readPromises st' = (Return (<[index := resolved p s by_ now]> ps), st')
    /\ ledger_jsonl st' = ledger_jsonl st
    /\ reports_jsonl st' = reports_jsonl st.
Proof.
  intros Hread Hfind Hall Hnew.
  destruct (resolvePromise_found now id s by_ st ps p Hread Hfind)
    as (index & Hi & Hp & ->).
  exists index. eexists. split; [reflexivity|]. split; [assumption|].
  split.
  - clear -Hi. revert index Hi.
    induction ps as [|x l IH]; simpl; intros index; [discriminate|].
    unfold hasId at 1. destruct (String.eqb_spec (Promise.id x) id) as [E|E].
    + intros [= <-] j q Hj. lia.
    + destruct (findIndex (hasId id) l) as [k|]; simpl; [|discriminate].
      intros [= <-] [|j] q Hj; simpl.
      * now intros [= <-].
      * apply (IH k eq_refl). lia.
  - split; [|split; reflexivity].
    apply (readPromises_after_alter st ps index p id
             (fun p => resolved p s by_ now)); auto.
Qed.


(** X10. [supersedePromise] marks the first promise of the old id as superseded
    by the new id, keeps its [resolvedBy], and stores the record; it does so
    for any new id, whether a promise of that id exists or not. *)
Theorem supersedePromise_marks_superseded
    `{Json PromiseEntry} (st : FS) (ps : list PromiseEntry)
    (now oldId newId : string) (p : PromiseEntry) :
  readPromises st = (Return ps, st) ->
  List.find (hasId oldId) ps = Some p ->
  Forall faithful ps ->
  faithful (supersededWith p newId now) ->
  exists p' st',
    supersedePromise now oldId newId st = (Return (Some p'), st')
    /\ getPromiseById oldId st' = (Return (Some p'), st')
    /\ Promise.status p' = superseded
    /\ Promise.supersededBy p' = Some newId
    /\ Promise.resolvedAt p' = Some now
    /\ Promise.resolvedBy p' = Promise.resolvedBy p
    /\ (newId <> oldId ->
        fst (getPromiseById newId st') = fst (getPromiseById newId st)).
Proof.
  intros Hread Hfind Hall Hnew.
  destruct (supersedePromise_found now oldId newId st ps p Hread Hfind)
    as (index & Hi & Hp & ->).
  destruct (readPromises_after_alter st ps index p oldId
              (fun p => supersededWith p newId now) Hi Hp eq_refl Hall Hnew)
    as [Hread' Hget'].
  eexists _, _. split; [reflexivity|]. split; [exact Hget'|].
  repeat (split; [reflexivity|]).
  intros Hne. rewrite (getPromiseById_read _ _ _ Hread').
  rewrite (getPromiseById_read _ _ _ Hread). simpl. f_equal.
  assert (Promise.id p = oldId) as Hpid.
  { apply find_some in Hfind as [_ Hid]. now apply String.eqb_eq in Hid. }
  clear -Hp Hne Hpid. revert index Hp.
  induction ps as [|x l IH]; intros [|i]; simpl; try discriminate.
  - intros [= ->]. unfold hasId. simpl.
    destruct (String.eqb_spec (Promise.id p) newId) as [E|E]; [|reflexivity].
    congruence.
  - intros Hp. destruct (hasId newId x); [reflexivity|]. now apply IH.
Qed.

Lemma filter_active_withdrawn (id now : string) (ps : list PromiseEntry)
    (index : nat) :
  NoDup (map Promise.id ps) ->
  findIndex (hasId id) ps = Some index ->
  List.filter (fun p => bool_decide (Promise.status p = active))
    (alter (fun p => resolved p withdrawn None now) index ps)
  = List.filter (fun q => negb (hasId id q))
      (List.filter (fun p => bool_decide (Promise.status p = active)) ps).
Proof.
  revert index. induction ps as [|x l IH]; intros index; simpl; [discriminate|].
  intros [Hx Hl]%NoDup_cons.
  destruct (hasId id x) eqn:Hid.
  - intros [= <-]. simpl.
    assert (List.filter (fun q => negb (hasId id q))
              (List.filter (fun p => bool_decide (Promise.status p = active)) l)
            = List.filter (fun p => bool_decide (Promise.status p = active)) l)
      as Hsame.
    { apply String.eqb_eq in Hid. clear -Hx Hid.
      induction l as [|y l IH]; simpl; [reflexivity|].
      assert (hasId id y = false) as Hy.
      { apply String.eqb_neq. intros E. apply Hx. simpl.
        rewrite Hid, <- E. apply list_elem_of_here. }
      assert (Promise.id x ∉ map Promise.id l) as Hx'
        by (intros Hin; apply Hx; simpl; now apply list_elem_of_further).
      destruct (bool_decide (Promise.status y = active)); simpl.
      - rewrite Hy. simpl. now rewrite IH.
      - now apply IH. }
    destruct (bool_decide (Promise.status x = active)); simpl.
    + rewrite Hid. simpl. now rewrite Hsame.
    + now rewrite Hsame.
  - destruct (findIndex (hasId id) l) as [k|] eqn:Hk; simpl; [|discriminate].
    intros [= <-]. simpl.
    change (list_alter (fun p => resolved p withdrawn None now) k l)
      with (alter (fun p => resolved p withdrawn None now) k l).
    rewrite (IH k Hl eq_refl).
    destruct (bool_decide (Promise.status x = active)); simpl;
      [rewrite Hid|]; reflexivity.
Qed.

(** X11. When no two promises share an id, [withdrawPromise] takes the promise
    out of the active promises and leaves the other active promises as they
    were, in their order. *)
Theorem withdrawPromise_leaves_active_promises
    `{Json PromiseEntry} (st : FS) (ps : list PromiseEntry) (now id : string)
    (p : PromiseEntry) :
  readPromises st = (Return ps, st) ->
  NoDup (map Promise.id ps) ->
  List.find (hasId id) ps = Some p ->
  Forall faithful ps ->
  faithful (resolved p withdrawn None now) ->
  exists st' before,
    withdrawPromise now id st
    = (Return (Some (resolved p withdrawn None now)), st')
    /\ readActivePromises st = (Return before, st)
    /\ readActivePromises st'
       = (Return (List.filter (fun q => negb (hasId id q)) before), st')
    /\ Forall (fun q => Promise.id q <> id)
              (List.filter (fun q => negb (hasId id q)) before).
Proof.
  intros Hread Hnodup Hfind Hall Hnew.
  unfold withdrawPromise.
  destruct (resolvePromise_found now id withdrawn None st ps p Hread Hfind)
    as (index & Hi & Hp & ->).
  destruct (readPromises_rewritten st ps index p id withdrawn None now
              Hi Hp Hall Hnew) as [Hread' _].
  eexists _, _. split; [reflexivity|].
  unfold readActivePromises. fs_unfold. rewrite Hread, Hread'.
  split; [reflexivity|]. split.
  - do 2 f_equal. now apply filter_active_withdrawn.
  - apply Forall_forall. intros q [_ Hq]%list_elem_of_In%filter_In.
    apply negb_true_iff in Hq. now apply String.eqb_neq in Hq.
Qed.

Lemma find_snoc_fresh {A} (f : A -> bool) (l : list A) (x : A) :
  List.find f l = None -> f x = true -> List.find f (l ++ [x]) = Some x.
Proof.
  intros Hnone Hx. induction l as [|y l IH]; simpl in *.
  - now rewrite Hx.
  - destruct (f y); [discriminate|]. now apply IH.
Qed.

(** X12. A promise built by [createPromise] and appended to a well-formed store
    under an id that no stored promise has is then found by that id and is
    among the active promises. *)
Theorem created_promise_is_active
    `{Json PromiseEntry} `{Schema PromiseEntry} (st : FS) (p : PromiseEntry)
    (uuid now : string) (promiser : Promise.Promiser)
    (promisee : Promise.Promisee) (body : Promise.Body)
    (context : option Promise.Context) (tags : option (list string)) :
  p = createPromise uuid now promiser promisee body context tags ->
  well_formed PromiseEntry (promises_jsonl st) ->
  isValidPromise p = true ->
  faithful p ->
  getPromiseById uuid st = (Return None, st) ->
  exists st' actives,
    appendPromise p st = (Return tt, st')
    /\ getPromiseById uuid st' = (Return (Some p), st')
    /\ readActivePromises st' = (Return actives, st')
    /\ p ∈ actives.
Proof.
  intros Hp Hwf Hvalid Hfaith (old & Hold & Hfresh & _)%getPromiseById_inv.
  destruct (appendRecord_then_read promises_jsonl set_promises "promise"
              (fun _ _ => eq_refl) (fun _ => eq_refl) st p Hwf Hvalid Hfaith)
    as (old' & st' & Hold' & Happ & Hnew & _).
  fold readPromises in Hold', Hnew. rewrite Hold in Hold'.
  injection Hold' as <-.
  exists st'. eexists. split; [exact Happ|].
  split.
  - rewrite (getPromiseById_read _ _ _ Hnew). do 2 f_equal.
    apply find_snoc_fresh; [now symmetry|].
    subst p. apply String.eqb_refl.
  - unfold readActivePromises. fs_unfold. rewrite Hnew.
    split; [reflexivity|].
    apply list_elem_of_In, filter_In. split.
    + apply in_or_app. right. now left.
    + subst p. reflexivity.
Qed.

(** The loop of [getPromiseSummary]: each counter grows by the number of
    promises of its status. *)
Lemma countStatus_foldl (ps : list PromiseEntry) (c : StatusCounts.t)
    (m : gmap string nat) :
  let count s :=
    length (List.filter (fun p => bool_decide (Promise.status p = s)) ps) in
  let counted :=
    (foldl (fun acc p =>
              (bumpStatus (Promise.status p) acc.1,
               bumpAgent (Promise.agent (Promise.promiser p)) acc.2))
           (c, m) ps).1 in
  StatusCounts.active counted = StatusCounts.active c + count active
  /\ StatusCounts.fulfilled counted = StatusCounts.fulfilled c + count fulfilled
  /\ StatusCounts.broken counted = StatusCounts.broken c + count broken
  /\ StatusCounts.withdrawn counted = StatusCounts.withdrawn c + count withdrawn
  /\ StatusCounts.superseded counted
     = StatusCounts.superseded c + count superseded.
Proof.
  revert c m. induction ps as [|p ps IH]; intros c m; simpl.
  - repeat split; lia.
  - specialize (IH (bumpStatus (Promise.status p) c)
                   (bumpAgent (Promise.agent (Promise.promiser p)) m)).
    simpl in IH. destruct IH as (-> & -> & -> & -> & ->).
    destruct (Promise.status p); simpl; repeat split; lia.
Qed.

Lemma status_partition (ps : list PromiseEntry) :
  let count s :=
    length (List.filter (fun p => bool_decide (Promise.status p = s)) ps) in
  count active + count fulfilled + count broken + count withdrawn
  + count superseded = length ps.
Proof.
  induction ps as [|p ps IH]; simpl in *; [reflexivity|].
  destruct (Promise.status p); simpl; lia.
Qed.

(** X13. The counters of [getPromiseSummary] add up: [total] is the number of
    promises read, each status counter the number of promises of that
    status, their sum is [total], and the [active] counter is the number of
    promises that [readActivePromises] returns. *)
Theorem getPromiseSummary_counts
    `{Json PromiseEntry} (st : FS) (ps : list PromiseEntry) :
  readPromises st = (Return ps, st) ->
  exists s actives,
    getPromiseSummary st = (Return s, st)
    /\ readActivePromises st = (Return actives, st)
    /\ PromiseSummary.total s = length ps
    /\ StatusCounts.active (PromiseSummary.byStatus s) = length actives
    /\ StatusCounts.active (PromiseSummary.byStatus s)
       + StatusCounts.fulfilled (PromiseSummary.byStatus s)
       + StatusCounts.broken (PromiseSummary.byStatus s)
       + StatusCounts.withdrawn (PromiseSummary.byStatus s)
       + StatusCounts.superseded (PromiseSummary.byStatus s)
       = PromiseSummary.total s.
Proof.
  intros Hread. unfold getPromiseSummary, readActivePromises. fs_unfold.
  rewrite Hread. eexists _, _. split; [reflexivity|]. split; [reflexivity|].
  simpl.
  destruct (countStatus_foldl ps (StatusCounts.Build_t 0 0 0 0 0) ∅)
    as (-> & -> & -> & -> & ->).
  simpl. split; [reflexivity|]. split; [reflexivity|].
  apply status_partition.
Qed.

(** ** More on reports *)

Section ReportFacts.
Context `{Json PromiseEntry} `{Json WorkReport} `{Schema WorkReport}.


Lemma getReportsForPromise_read id st rs :
  readReports st = (Return rs, st) ->
  getReportsForPromise id st
  = (Return (List.filter (fun r => String.eqb (Report.promiseId r) id) rs), st).
Proof. intros E. unfold getReportsForPromise. fs_unfold. now rewrite E. Qed.



End ReportFacts.


(** X15. When the verdict report does not pass the schema, [addVerdict] throws
    the [Invalid report] error before anything is written: no report is
    appended and the promise is not resolved. *)
Theorem addVerdict_invalid_report_writes_nothing
    `{Json PromiseEntry} `{Json WorkReport} `{Schema WorkReport}
    (st : FS) (ps : list PromiseEntry) (p : PromiseEntry)
    (uuid reportedAt resolvedAt id : string) (v : VerdictStatus)
    (reasoning : string) (agent : option string) :
  readPromises st = (Return ps, st) ->
  List.find (hasId id) ps = Some p ->
  isValidReport (verdictReport uuid reportedAt id v reasoning agent) = false ->
  addVerdict uuid reportedAt resolvedAt id v reasoning agent st
  = (Throw (InvalidRecord "report"
             (validationErrors
                (verdictReport uuid reportedAt id v reasoning agent))), st).
Proof.
  intros Hread Hfind Hinvalid.
  unfold addVerdict. fold (verdictReport uuid reportedAt id v reasoning agent).
  unfold mbind at 1. unfold Fs_bind at 1.
  rewrite (getPromiseById_read id st ps Hread), Hfind.
  unfold mbind at 1. unfold Fs_bind at 1.
  unfold appendReport. now rewrite appendRecord_invalid.
Qed.


(** The loop of [getReportSummary]. *)
Lemma countReport_foldl (rs : list WorkReport) (w : nat)
    (m : gmap string nat) (c : VerdictCounts.t) :
  let with_status v :=
    length (List.filter
              (fun r => bool_decide
                          (option_map Report.status (Report.verdict r) = Some v))
              rs) in
  let '(w', _, c') := foldl countReport (w, m, c) rs in
  VerdictCounts.fulfilled c'
  = VerdictCounts.fulfilled c + with_status verdict_fulfilled
  /\ VerdictCounts.partial c'
     = VerdictCounts.partial c + with_status verdict_partial
  /\ VerdictCounts.broken c'
     = VerdictCounts.broken c + with_status verdict_broken
  /\ w' = w + length (List.filter
                        (fun r => match Report.verdict r with
                                  | Some _ => true | None => false end) rs)
  /\ w' + VerdictCounts.fulfilled c + VerdictCounts.partial c
     + VerdictCounts.broken c
     = w + VerdictCounts.fulfilled c' + VerdictCounts.partial c'
       + VerdictCounts.broken c'.
Proof.
  revert w m c. induction rs as [|r rs IH]; intros w m c.
  - simpl. repeat split; lia.
  - change (foldl countReport (w, m, c) (r :: rs))
      with (foldl countReport (countReport (w, m, c) r) rs).
    assert (countReport (w, m, c) r
            = match Report.verdict r with
              | Some v =>
                  (S w, bumpAgent (Report.agent (Report.reporter r)) m,
                   bumpVerdict (Report.status v) c)
              | None => (w, bumpAgent (Report.agent (Report.reporter r)) m, c)
              end) as -> by reflexivity.
    cbn [List.filter].
    destruct (Report.verdict r) as [[[] reasoning]|]; cbn [option_map Report.status].
    all: match goal with
         | |- context [foldl countReport (?w1, ?m1, ?c1) ?l] =>
             specialize (IH w1 m1 c1);
             destruct (foldl countReport (w1, m1, c1) l) as [[w' m'] c']
         end.
    all: cbn in IH; destruct IH as (-> & -> & -> & -> & ?).
    all: cbn; repeat case_bool_decide; try congruence; cbn; repeat split; lia.
Qed.

(** X17. The counters of [getReportSummary] add up: [total] is the number of
    reports read, [withVerdicts] the number of reports that
    [getReportsWithVerdicts] returns, and the three verdict counters sum to
    [withVerdicts]. *)
Theorem getReportSummary_counts
    `{Json WorkReport} (st : FS) (rs : list WorkReport) :
  readReports st = (Return rs, st) ->
  exists s judged,
    getReportSummary st = (Return s, st)
    /\ getReportsWithVerdicts st = (Return judged, st)
    /\ ReportSummary.total s = length rs
    /\ ReportSummary.withVerdicts s = length judged
    /\ VerdictCounts.fulfilled (ReportSummary.verdictCounts s)
       + VerdictCounts.partial (ReportSummary.verdictCounts s)
       + VerdictCounts.broken (ReportSummary.verdictCounts s)
       = ReportSummary.withVerdicts s
    /\ ReportSummary.withVerdicts s <= ReportSummary.total s.
Proof.
  intros Hread. unfold getReportSummary, getReportsWithVerdicts. fs_unfold.
  rewrite Hread.
  pose proof (countReport_foldl rs 0 ∅ (VerdictCounts.Build_t 0 0 0)) as Hc.
  destruct (foldl countReport (0, ∅, VerdictCounts.Build_t 0 0 0) rs)
    as [[w m] c].
  simpl in Hc. destruct Hc as (_ & _ & _ & Hw & Hsum).
  eexists _, _. split; [reflexivity|]. split; [reflexivity|]. simpl.
  split; [reflexivity|]. split; [exact Hw|]. split; [lia|].
  rewrite Hw. apply List.filter_length_le.
Qed.

(** X18. The average confidence is exactly 0, with no division, when no report
    of the store refers to the promise. *)
Theorem getAverageConfidenceForPromise_no_report
    `{Json WorkReport} (fadd : Q -> Q -> Q) (fdiv : Q -> nat -> Q)
    (st : FS) (rs : list WorkReport) (promiseId : string) :
  readReports st = (Return rs, st) ->
  Forall (fun r => Report.promiseId r <> promiseId) rs ->
  getAverageConfidenceForPromise fadd fdiv promiseId st = (Return 0%Q, st).
Proof.
  intros Hread Hnone. unfold getAverageConfidenceForPromise. fs_unfold.
  rewrite (getReportsForPromise_read _ _ _ Hread).
  assert (List.filter (fun r => String.eqb (Report.promiseId r) promiseId) rs
          = []) as ->; [|reflexivity].
  clear Hread. induction Hnone as [|r rs Hr _ IH]; simpl; [reflexivity|].
  apply String.eqb_neq in Hr. now rewrite Hr.
Qed.

(** ** More on the lookup of the command line *)

Lemma prefix_same_length (a b : string) :
  String.prefix a b = true -> String.length a = String.length b -> a = b.
Proof.
  revert b. induction a as [|c a IH]; intros [|d b]; simpl; try discriminate.
  - reflexivity.
  - destruct (Ascii.ascii_dec c d) as [->|]; [|discriminate].
    intros Hp [= Hl]. f_equal. now apply IH.
Qed.

(** X19. The commands act on the very promise their lookup selected: when the
    reference selects [c], whose id equals or starts with the reference,
    [promise resolve] returns [c] resolved with the status asked for and
    [promise withdraw] returns [c] withdrawn, even if other promises share
    the id or the prefix. *)
Theorem commands_update_the_promise_looked_up
    `{Json PromiseEntry} (st : FS) (ps : list PromiseEntry) (ref now : string)
    (status : PromiseStatus) (c : PromiseEntry) :
  readPromises st = (Return ps, st) ->
  findByRef ref ps = Some c ->
  status ∈ [fulfilled; broken; withdrawn] ->
  startsWith (Promise.id c) ref = true
  /\ (exists st',
        promiseResolveCommand now ref status st
        = (Return (Some (resolved c status None now)), st'))
  /\ (exists st',
        promiseWithdrawCommand now ref st
        = (Return (Some (resolved c withdrawn None now)), st')).
Proof.
  intros Hread Hfind Hstatus.
  pose proof (findByRef_find_own_id _ _ _ Hfind) as Hown.
  split; [|split].
  - apply find_some in Hfind as [_ Hm]. unfold matchesRef in Hm.
    apply orb_true_iff in Hm as [->%String.eqb_eq|]; [|assumption].
    apply prefix_refl.
  - unfold promiseResolveCommand.
    rewrite bool_decide_eq_true_2 by assumption. simpl.
    unfold mbind at 1. unfold Fs_bind at 1. rewrite Hread, Hfind.
    destruct (resolvePromise_found now (Promise.id c) status None st ps c
                Hread Hown) as (index & _ & _ & ->). eauto.
  - unfold promiseWithdrawCommand, withdrawPromise.
    unfold mbind at 1. unfold Fs_bind at 1. rewrite Hread, Hfind.
    destruct (resolvePromise_found now (Promise.id c) withdrawn None st ps c
                Hread Hown) as (index & _ & _ & ->). eauto.
Qed.

Lemma findByRef_none ref ps :
  Forall (fun p => startsWith (Promise.id p) ref = false) ps ->
  findByRef ref ps = None.
Proof.
  unfold findByRef. induction 1 as [|x l Hx _ IH]; simpl; [reflexivity|].
  unfold matchesRef at 1. rewrite Hx, orb_false_r.
  destruct (String.eqb_spec (Promise.id x) ref) as [E|E]; [|assumption].
  unfold startsWith in Hx. rewrite E, prefix_refl in Hx. discriminate.
Qed.

(** X20. For a reference that no id of the store starts with, [promise resolve],
    [promise withdraw] and [report verdict] exit with code 1 after the
    message [Promise not found], and nothing is written. *)
Theorem commands_exit_on_unknown_reference
    `{Json PromiseEntry} `{Json WorkReport} `{Schema WorkReport}
    (st : FS) (ps : list PromiseEntry) (ref now uuid reportedAt reason : string)
    (status : PromiseStatus) (verdict : VerdictStatus) (agent : option string) :
  readPromises st = (Return ps, st) ->
  Forall (fun p => startsWith (Promise.id p) ref = false) ps ->
  status ∈ [fulfilled; broken; withdrawn] ->
  promiseResolveCommand now ref status st
  = (Throw (ProcessExit 1 ("Promise not found: " +:+ ref)), st)
  /\ promiseWithdrawCommand now ref st
     = (Throw (ProcessExit 1 ("Promise not found: " +:+ ref)), st)
  /\ reportVerdictCommand uuid reportedAt now ref verdict reason agent st
     = (Throw (ProcessExit 1 ("Promise not found: " +:+ ref)), st).
Proof.
  intros Hread Hnone%findByRef_none Hstatus. split; [|split].
  - unfold promiseResolveCommand.
    rewrite bool_decide_eq_true_2 by assumption. simpl.
    fs_unfold. now rewrite Hread, Hnone.
  - unfold promiseWithdrawCommand. fs_unfold. now rewrite Hread, Hnone.
  - unfold reportVerdictCommand.
    rewrite bool_decide_eq_true_2
      by (destruct verdict; repeat constructor).
    simpl. fs_unfold. now rewrite Hread, Hnone.
Qed.

(** X21. When every id of the store is as long as the reference, as full uuids
    are, the lookup by reference is the lookup by id: a prefix can then only
    match the whole id. *)
Theorem full_length_reference_is_exact
    (ref : string) (ps : list PromiseEntry) :
  Forall (fun p => String.length (Promise.id p) = String.length ref) ps ->
  findByRef ref ps = List.find (hasId ref) ps.
Proof.
  unfold findByRef. induction 1 as [|x l Hx _ IH]; simpl; [reflexivity|].
  assert (matchesRef ref x = hasId ref x) as ->; [|now rewrite IH].
  unfold matchesRef, hasId, startsWith.
  destruct (String.eqb_spec (Promise.id x) ref) as [E|E]; [reflexivity|].
  simpl. destruct (String.prefix ref (Promise.id x)) eqn:Hp; [|reflexivity].
  apply prefix_same_length in Hp; congruence.
Qed.

(** ** More on conflicts and on entries by file *)

Lemma includes_refl (s : string) : includes s s = true.
Proof.
  destruct s as [|c s]; [reflexivity|].
  cbn [includes]. now rewrite prefix_refl.
Qed.

Lemma List_existsb_ext {A} (f g : A -> bool) (l : list A) :
  (forall a, f a = g a) -> existsb f l = existsb g l.
Proof.
  intros Hfg. induction l as [|x l IH]; simpl; [reflexivity|].
  now rewrite Hfg, IH.
Qed.

Lemma List_filter_sublist {A} (f : A -> bool) (l : list A) :
  List.filter f l `sublist_of` l.
Proof.
  induction l as [|x l IH]; simpl; [constructor|].
  destruct (f x); now constructor.
Qed.

(** X22. [readByFile] returns, in ledger order, exactly the entries that have an
    artifact whose path contains the file path (the test for equality adds
    nothing to the test for inclusion); every entry that [detectConflict]
    scans for that path is among them. *)
Theorem readByFile_contains_scanned_entries
    `{Json LedgerEntry} (st : FS) (ledger : list LedgerEntry) (file : string) :
  readLedger st = (Return ledger, st) ->
  exists found,
    readByFile file st = (Return found, st)
    /\ found
       = List.filter
           (fun e => existsb (fun a => includes (Entry.path a) file)
                             (Entry.artifacts e)) ledger
    /\ found `sublist_of` ledger
    /\ (forall e, e ∈ scanned file ledger -> e ∈ found).
Proof.
  intros Hread. unfold readByFile. fs_unfold. rewrite Hread.
  eexists. split; [reflexivity|].
  assert (forall a, String.eqb (Entry.path a) file || includes (Entry.path a) file
                    = includes (Entry.path a) file) as Hsame.
  { intros a. destruct (String.eqb_spec (Entry.path a) file) as [->|];
      [now rewrite includes_refl|reflexivity]. }
  split; [|split].
  - apply List.filter_ext. intros e. apply List_existsb_ext. apply Hsame.
  - apply List_filter_sublist.
  - intros e He. unfold scanned in He.
    rewrite (js_slice_from_last 5) in He by lia.
    apply (subseteq_drop _ _) in He.
    apply list_elem_of_In, filter_In in He as [Hin Htouch].
    apply list_elem_of_In, filter_In. split; [assumption|].
    unfold touches in Htouch. apply existsb_exists in Htouch as (a & Ha & Hp).
    apply existsb_exists. exists a. split; [assumption|]. now rewrite Hp.
Qed.

Lemma firstOtherIntent_snoc_other intent l e :
  Entry.intent (Entry.reasoning e) <> intent ->
  exists prior,
    firstOtherIntent intent (l ++ [e])
    = Conflict prior (Entry.intent (Entry.reasoning prior))
    /\ prior ∈ l ++ [e]
    /\ Entry.intent (Entry.reasoning prior) <> intent.
Proof.
  intros He. induction l as [|x l IH]; simpl.
  - apply String.eqb_neq in He. rewrite He. simpl.
    exists e. split; [reflexivity|]. split; [apply list_elem_of_here|].
    now apply String.eqb_neq.
  - destruct (String.eqb_spec (Entry.intent (Entry.reasoning x)) intent) as [E|E];
      simpl.
    + destruct IH as (prior & -> & Hin & Hne). exists prior.
      split; [reflexivity|]. split; [now apply list_elem_of_further|assumption].
    + exists x. split; [reflexivity|]. split; [apply list_elem_of_here|assumption].
Qed.

(** X23. Once an entry that touches the file with another intent is the latest
    of the ledger, [detectConflict] reports a conflict for that file: with
    an entry that touches the file and whose intent differs from the
    proposed one. *)
Theorem detectConflict_after_other_intent
    (file intent : string) (ledger : list LedgerEntry) (e : LedgerEntry) :
  touches file e = true ->
  Entry.intent (Entry.reasoning e) <> intent ->
  exists prior,
    detectConflict file intent (ledger ++ [e])
    = Conflict prior (Entry.intent (Entry.reasoning prior))
    /\ prior ∈ ledger ++ [e]
    /\ touches file prior = true
    /\ Entry.intent (Entry.reasoning prior) <> intent.
Proof.
  intros Htouch He. unfold detectConflict.
  rewrite List.filter_app. cbn [List.filter]. rewrite Htouch.
  change (-5)%Z with (Z.opp 5).
  destruct (js_slice_from_last_snoc 5 (List.filter (touches file) ledger) e)
    as (k & _ & ->); [lia|].
  destruct (firstOtherIntent_snoc_other intent
              (drop k (List.filter (touches file) ledger)) e He)
    as (prior & -> & Hin & Hne).
  exists prior. split; [reflexivity|].
  apply elem_of_app in Hin as [Hin|Hin].
  - apply (subseteq_drop _ _) in Hin.
    apply list_elem_of_In, filter_In in Hin as [Hin Ht].
    split; [|auto]. apply elem_of_app. left. now apply list_elem_of_In.
  - apply list_elem_of_singleton in Hin as ->.
    split; [|auto]. apply elem_of_app. right. apply list_elem_of_here.
Qed.

(** * Runs on the reference environment *)

Import Sample.

Ltac run := vm_compute; reflexivity.
Ltac run_faithful := split; vm_compute; reflexivity.

(** The promise of scenario B is found and marked fulfilled. *)
Lemma addVerdict_propagates_witness :
  exists report P' st',
    addVerdict "r-1" "2026-11-02T09:00:00.000Z" "2026-11-02T09:00:01.000Z"
               "abc-1" verdict_fulfilled "done" None (store [] [promiseA] [])
    = (Return (Some (report, P')), st')
    /\ Report.promiseId report = "abc-1"
    /\ option_map Report.status (Report.verdict report) = Some verdict_fulfilled
    /\ Promise.status P' = fulfilled
    /\ getPromiseById "abc-1" st' = (Return (Some P'), st').
Proof.
  destruct (addVerdict_propagates (store [] [promiseA] []) [promiseA] promiseA
              "r-1" "2026-11-02T09:00:00.000Z" "2026-11-02T09:00:01.000Z"
              verdict_fulfilled "done" None)
    as (report & P' & st' & Hrun & _ & Hverdict & Hid & Hget & Hstatus).
  - run.
  - reflexivity.
  - run.
  - repeat constructor; vm_compute; reflexivity.
  - run_faithful.
  - exists report, P', st'. repeat split; assumption.
Defined.

(** C2, the claim refuted: with two promises whose ids start with [abc], the
    specified lookup is ambiguous, yet the lookup of the command returns the
    first promise and the command marks it fulfilled without any error. *)
Lemma ambiguous_prefix_not_rejected :
  lookup_spec "abc" [promiseA; promiseB] = AmbiguousReference [promiseA; promiseB]
  /\ findByRef "abc" [promiseA; promiseB] = Some promiseA
  /\ fst (promiseResolveCommand "2026-11-02T09:00:00.000Z" "abc" fulfilled
            (store [] [promiseA; promiseB] []))
     = Return (Some (resolved promiseA fulfilled None "2026-11-02T09:00:00.000Z"))
  /\ forall e,
       fst (promiseResolveCommand "2026-11-02T09:00:00.000Z" "abc" fulfilled
              (store [] [promiseA; promiseB] []))
       <> Throw e.
Proof.
  split; [run|]. split; [run|]. split; [run|].
  intros e. vm_compute. discriminate.
Qed.

(** With the two promises of scenario D in the store, [abc] selects the
    first, [promise resolve] marks it fulfilled, and the second is as it
    was. *)
Lemma ambiguous_prefix_selects_first_witness :
  findByRef "abc" [promiseA; promiseB] = Some promiseA
  /\ exists st',
       promiseResolveCommand "2026-11-02T09:00:00.000Z" "abc" fulfilled
         (store [] [promiseA; promiseB] [])
       = (Return (Some (resolved promiseA fulfilled None
                          "2026-11-02T09:00:00.000Z")), st')
       /\ readPromises st'
          = (Return [resolved promiseA fulfilled None "2026-11-02T09:00:00.000Z";
                     promiseB], st').
Proof.
  destruct (ambiguous_prefix_selects_first (store [] [promiseA; promiseB] [])
              [promiseA; promiseB] "abc" "2026-11-02T09:00:00.000Z" fulfilled
              promiseA promiseB [])
    as (Hfind & _ & index & st' & Hrun & Hidx & _ & _ & _ & _ & Hstore).
  - run.
  - reflexivity.
  - apply list_elem_of_here.
  - split; [assumption|]. exists st'. split; [assumption|].
    rewrite Hstore.
    + destruct index as [|[|index]]; [reflexivity|discriminate|discriminate].
    + repeat constructor; run.
    + split; run.
Defined.

(** C3, the claim refuted: an entry that touched [src/a.ts] with another
    intent is among the entries the specification scans for [a.ts], which
    therefore reports a conflict, while [detectConflict] does not scan it
    and reports none. *)
Lemma detectConflict_misses_substring_paths :
  touches_spec "a.ts" entry3 = true
  /\ Entry.intent (Entry.reasoning entry3) <> "remove feature"
  /\ conflictCheck_spec "a.ts" "remove feature" [entry3]
     = Conflict entry3 "add feature"
  /\ detectConflict "a.ts" "remove feature" [entry3] = NoConflict.
Proof.
  split; [run|]. split; [discriminate|]. split; run.
Qed.

(** Scenario A on the documented algorithm. *)
Lemma detectConflict_scenario_A :
  detectConflict "a.ts" "remove feature" [entry1; entry2]
  = Conflict entry1 "add feature".
Proof. run. Qed.

Lemma appendEntry_invalid_leaves_file_witness :
  isValidEntry entry_no_intent = false
  /\ appendEntry entry_no_intent (store [entry1] [] [])
     = (Throw (InvalidRecord "entry" (validationErrors entry_no_intent)),
        store [entry1] [] []).
Proof.
  split; [reflexivity|].
  destruct (appendEntry_invalid_leaves_file (store [entry1] [] [])
              entry_no_intent) as (st' & Hrun & Hsame & _).
  - reflexivity.
  - rewrite Hsame in Hrun. exact Hrun.
Defined.

(** C5, the failing input: the third line of the file is the one that is
    not JSON (the first parses, the second is blank), and [readLedger] and
    [readLastN] throw [Invalid JSON on line 2]. *)
Theorem readLedger_line_number_skips_blank_lines :
  file_line blank_then_bad 1 = Some (stringify entry1)
  /\ parse (stringify entry1) = Some entry1
  /\ file_line blank_then_bad 2 = Some []
  /\ file_line blank_then_bad 3 = Some (of_string "not json")
  /\ parse (R:=LedgerEntry) (of_string "not json") = None
  /\ readLedger blank_then_bad_fs = (Throw (InvalidJson 2), blank_then_bad_fs)
  /\ readLastN 5 blank_then_bad_fs = (Throw (InvalidJson 2), blank_then_bad_fs).
Proof. repeat split; run. Qed.

(** With [n = 0] the whole ledger comes back, not the empty list. *)
Lemma readLastN_zero_example :
  fst (readLastN 0 (store [entry1; entry2] [] [])) = Return [entry1; entry2]
  /\ fst (readLastN 1 (store [entry1; entry2] [] [])) = Return [entry2].
Proof. split; run. Qed.

(** C6, the claim refuted: for an id that no promise has, [addVerdict]
    returns [null]; nothing is thrown. *)
Lemma addVerdict_missing_promise_not_thrown :
  getPromiseById "nonexistent-id" (store [] [promiseA] [])
  = (Return None, store [] [promiseA] [])
  /\ addVerdict "r-1" "2026-11-02T09:00:00.000Z" "2026-11-02T09:00:01.000Z"
       "nonexistent-id" verdict_fulfilled "done" None (store [] [promiseA] [])
     = (Return None, store [] [promiseA] [])
  /\ forall e,
       fst (addVerdict "r-1" "2026-11-02T09:00:00.000Z"
              "2026-11-02T09:00:01.000Z" "nonexistent-id" verdict_fulfilled
              "done" None (store [] [promiseA] []))
       <> Throw e.
Proof.
  split; [run|]. split; [run|]. intros e. vm_compute. discriminate.
Qed.

Lemma addVerdict_missing_promise_returns_null_witness :
  addVerdict "r-1" "2026-11-02T09:00:00.000Z" "2026-11-02T09:00:01.000Z"
    "nonexistent-id" verdict_broken "not done" (Some "reviewer")
    (store [] [promiseA] [])
  = (Return None, store [] [promiseA] []).
Proof.
  destruct (addVerdict_missing_promise_returns_null (store [] [promiseA] [])
              "r-1" "2026-11-02T09:00:00.000Z" "2026-11-02T09:00:01.000Z"
              "nonexistent-id" verdict_broken "not done" (Some "reviewer"))
    as (st' & Hrun & Hsame & _).
  - run.
  - rewrite Hsame in Hrun. exact Hrun.
Defined.

(** C7, the claim refuted: on a ledger whose last line lacks its line feed,
    the ledger reads fine, [appendEntry] of a valid entry succeeds, and
    [readLedger] then throws instead of returning a list with the entry. *)
Lemma append_then_read_fails_on_unterminated_file :
  readLedger unterminated_fs = (Return [entry1], unterminated_fs)
  /\ isValidEntry entry2 = true
  /\ faithful entry2
  /\ exists st',
       appendEntry entry2 unterminated_fs = (Return tt, st')
       /\ readLedger st' = (Throw (InvalidJson 1), st').
Proof.
  split; [run|]. split; [run|]. split; [run_faithful|].
  eexists. split; run.
Qed.

(** A form feed at the end of the last line is white space for [trim] and
    not for [JSON.parse]: the ledger reads fine until a line follows. *)
Lemma append_then_read_fails_after_form_feed :
  readLedger form_feed_fs = (Return [entry1], form_feed_fs)
  /\ exists st',
       appendEntry entry2 form_feed_fs = (Return tt, st')
       /\ readLedger st' = (Throw (InvalidJson 1), st').
Proof. split; [run|]. eexists. split; run. Qed.

(** The round trip on a ledger with blank lines, beside a reports file that
    does not parse; on a blank promises file; and on a reports file. *)
Lemma append_then_read_contains_witness :
  (exists st',
      appendEntry entry2 gapped_fs = (Return tt, st')
      /\ readLedger st' = (Return [entry1; entry3; entry2], st'))
  /\ (exists st',
      appendPromise promiseB gapped_fs = (Return tt, st')
      /\ readPromises st' = (Return [promiseB], st'))
  /\ (exists st',
      appendReport report1 (store [] [] [report2]) = (Return tt, st')
      /\ readReports st' = (Return [report2; report1], st')).
Proof.
  destruct (append_then_read_contains gapped_fs) as (He & Hp & _).
  destruct (append_then_read_contains (store [] [] [report2])) as (_ & _ & Hr).
  destruct (He entry2 [entry1; entry3]) as (l1 & s1 & Ha1 & Hr1 & -> & _).
  { split; [right; reflexivity|vm_compute; reflexivity]. }
  { vm_compute; reflexivity. }
  { vm_compute; reflexivity. }
  { split; vm_compute; reflexivity. }
  destruct (Hp promiseB []) as (l2 & s2 & Ha2 & Hr2 & -> & _).
  { split; [left; reflexivity|vm_compute; exact I]. }
  { vm_compute; reflexivity. }
  { vm_compute; reflexivity. }
  { split; vm_compute; reflexivity. }
  destruct (Hr report1 [report2]) as (l3 & s3 & Ha3 & Hr3 & -> & _).
  { split; [right; reflexivity|vm_compute; reflexivity]. }
  { vm_compute; reflexivity. }
  { vm_compute; reflexivity. }
  { split; vm_compute; reflexivity. }
  split; [|split]; eexists; eauto.
Defined.

(** C8, the claim refuted: a promise stamped in the future of the resolving
    clock is resolved with a [resolvedAt] before its [timestamp]. *)
Lemma resolvePromise_resolvedAt_before_timestamp :
  exists p' st',
    resolvePromise "2026-11-02T09:00:00.000Z" "fut-1" fulfilled None
      (store [] [promiseFuture] [])
    = (Return (Some p'), st')
    /\ Promise.timestamp p' = "2999-01-01T00:00:00.000Z"
    /\ Promise.resolvedAt p' = Some "2026-11-02T09:00:00.000Z"
    /\ timestamp_le (Promise.timestamp p') "2026-11-02T09:00:00.000Z" = false.
Proof. eexists _, _. split; [run|]. repeat split. Qed.

Lemma resolvePromise_returns_resolved_witness :
  exists p' st',
    resolvePromise "2026-11-02T09:00:00.000Z" "abc-1" withdrawn None
      (store [] [promiseA] [])
    = (Return (Some p'), st')
    /\ Promise.status p' = withdrawn
    /\ Promise.resolvedAt p' = Some "2026-11-02T09:00:00.000Z"
    /\ timestamp_le (Promise.timestamp p') "2026-11-02T09:00:00.000Z" = true.
Proof.
  destruct (resolvePromise_returns_resolved (store [] [promiseA] [])
              "2026-11-02T09:00:00.000Z" "abc-1" withdrawn None promiseA)
    as (p' & st' & Hrun & Hstatus & Hat & Hts & _).
  - run.
  - exists p', st'. repeat split; try assumption. rewrite Hts. reflexivity.
Defined.

(** A fulfilled promise is turned into a broken one. *)
Lemma resolvePromise_overwrites_terminal_witness :
  exists p' st',
    resolvePromise "2026-11-02T09:00:00.000Z" "def-1" broken (Some "r-9")
      (store [] [promiseA; promiseDone] [])
    = (Return (Some p'), st')
    /\ Promise.status promiseDone = fulfilled
    /\ Promise.status p' = broken
    /\ getPromiseById "def-1" st' = (Return (Some p'), st').
Proof.
  destruct (resolvePromise_overwrites_terminal
              (store [] [promiseA; promiseDone] []) [promiseA; promiseDone]
              "2026-11-02T09:00:00.000Z" "def-1" broken (Some "r-9") promiseDone)
    as (p' & st' & Hrun & Hstatus & Hget & _).
  - run.
  - reflexivity.
  - reflexivity.
  - repeat constructor; vm_compute; reflexivity.
  - run_faithful.
  - exists p', st'. repeat split; assumption.
Defined.

(** * Further runs on the reference environment *)

Lemma blank_ledger_is_empty_witness :
  readLedger blank_fs = (Return [], blank_fs)
  /\ validateLedger blank_fs
     = (Return {| Validation.valid := true; Validation.errors := [] |}, blank_fs)
  /\ generateSummary (Some 5%Z) blank_fs = (Return emptySummary, blank_fs).
Proof. apply (blank_ledger_is_empty blank_fs (Some 5%Z)). reflexivity. Defined.

Lemma readLastN_window_witness :
  fst (readLastN 2 (store [entry1; entry2; entry3] [] [])) = Return [entry2; entry3]
  /\ fst (readLastN (-2) (store [entry1; entry2; entry3] [] [])) = Return [entry3].
Proof.
  destruct (readLastN_window (store [entry1; entry2; entry3] [] [])
              [entry1; entry2; entry3] 2)
    as ((window & Hrun & -> & _) & Hneg).
  - run.
  - lia.
  - change (Z.of_nat 2) with 2%Z in *. change (- (2))%Z with (-2)%Z in Hneg.
    rewrite Hrun, Hneg. split; reflexivity.
Defined.

Lemma appendEntry_keeps_ledger_valid_witness :
  exists st',
    appendEntry entry2 (store [entry1] [] []) = (Return tt, st')
    /\ validateLedger st'
       = (Return {| Validation.valid := true; Validation.errors := [] |}, st').
Proof.
  apply (appendEntry_keeps_ledger_valid (store [entry1] [] [])
           {| Validation.valid := true; Validation.errors := [] |} entry2).
  - exists [stringify entry1]. split; [reflexivity|].
    repeat constructor. vm_compute. eauto.
  - run.
  - reflexivity.
  - run.
  - run_faithful.
Defined.

Lemma generateSummary_bounded_witness :
  exists s,
    generateSummary None (store [entry1; entry2; entry3] [] [])
    = (Return s, store [entry1; entry2; entry3] [] [])
    /\ length (recentFiles s) <= 20
    /\ length (keyDecisions s) <= 10
    /\ NoDup (recentAgents s)
    /\ NoDup (recentFiles s)
    /\ (s = emptySummary \/ totalEntries s = 3).
Proof.
  apply (generateSummary_bounded (store [entry1; entry2; entry3] [] [])
           [entry1; entry2; entry3] None).
  run.
Defined.

Lemma generateSummary_after_appendEntry_witness :
  exists st' s,
    appendEntry entry2 (store [entry1] [] []) = (Return tt, st')
    /\ generateSummary None st' = (Return s, st')
    /\ totalEntries s = 2
    /\ lastUpdated s = "2025-01-01T11:00:00.000Z"
    /\ "cursor" ∈ recentAgents s.
Proof.
  destruct (generateSummary_after_appendEntry (store [entry1] [] []) entry2 None)
    as (old & st' & s & Hold & Happ & Hsum & Htotal & Hlast & Hagent).
  - exists [stringify entry1]. split; [reflexivity|].
    repeat constructor. vm_compute. eauto.
  - run.
  - run_faithful.
  - reflexivity.
  - exists st', s. split; [exact Happ|]. split; [exact Hsum|].
    split; [|split; assumption].
    assert (readLedger (store [entry1] [] [])
            = (Return [entry1], store [entry1] [] [])) as Hone by run.
    rewrite Hone in Hold. injection Hold as <-. exact Htotal.
Defined.

Lemma missing_promise_is_not_updated_witness :
  resolvePromise "2026-11-02T09:00:00.000Z" "nonexistent-id" fulfilled None
    (store [] [promiseA] [])
  = (Return None, store [] [promiseA] [])
  /\ withdrawPromise "2026-11-02T09:00:00.000Z" "nonexistent-id"
       (store [] [promiseA] [])
     = (Return None, store [] [promiseA] [])
  /\ supersedePromise "2026-11-02T09:00:00.000Z" "nonexistent-id" "abc-1"
       (store [] [promiseA] [])
     = (Return None, store [] [promiseA] []).
Proof.
  apply (missing_promise_is_not_updated (store [] [promiseA] [])
           "2026-11-02T09:00:00.000Z" "nonexistent-id" "abc-1" fulfilled None).
  run.
Defined.

Lemma resolvePromise_changes_one_record_witness :
  exists st',
    resolvePromise "2026-11-02T09:00:00.000Z" "abc-2" broken None
      (store [] [promiseA; promiseB; promiseDone] [])
    = (Return (Some (resolved promiseB broken None "2026-11-02T09:00:00.000Z")),
       st')
    /\ readPromises st'
       = (Return [promiseA;
                  resolved promiseB broken None "2026-11-02T09:00:00.000Z";
                  promiseDone], st').
Proof.
  destruct (resolvePromise_changes_one_record
              (store [] [promiseA; promiseB; promiseDone] [])
              [promiseA; promiseB; promiseDone] "2026-11-02T09:00:00.000Z"
              "abc-2" broken None promiseB)
    as (index & st' & Hrun & Hat & _ & Hread & _).
  - run.
  - reflexivity.
  - repeat constructor; vm_compute; reflexivity.
  - run_faithful.
  - exists st'. split; [exact Hrun|].
    destruct index as [|[|[|index]]]; try discriminate Hat. exact Hread.
Defined.


Lemma supersedePromise_marks_superseded_witness :
  exists p' st',
    supersedePromise "2026-11-02T09:00:00.000Z" "abc-1" "no-such-promise"
      (store [] [promiseA] [])
    = (Return (Some p'), st')
    /\ getPromiseById "abc-1" st' = (Return (Some p'), st')
    /\ Promise.status p' = superseded
    /\ Promise.supersededBy p' = Some "no-such-promise".
Proof.
  destruct (supersedePromise_marks_superseded (store [] [promiseA] [])
              [promiseA] "2026-11-02T09:00:00.000Z" "abc-1" "no-such-promise"
              promiseA)
    as (p' & st' & Hrun & Hget & Hstatus & Hby & _).
  - run.
  - reflexivity.
  - repeat constructor; vm_compute; reflexivity.
  - run_faithful.
  - exists p', st'. repeat split; assumption.
Defined.

Lemma withdrawPromise_leaves_active_promises_witness :
  exists st',
    fst (withdrawPromise "2026-11-02T09:00:00.000Z" "abc-1"
           (store [] [promiseA; promiseB; promiseDone] []))
    = Return (Some (resolved promiseA withdrawn None "2026-11-02T09:00:00.000Z"))
    /\ readActivePromises st' = (Return [promiseB], st').
Proof.
  destruct (withdrawPromise_leaves_active_promises
              (store [] [promiseA; promiseB; promiseDone] [])
              [promiseA; promiseB; promiseDone] "2026-11-02T09:00:00.000Z"
              "abc-1" promiseA)
    as (st' & before & Hrun & Hbefore & Hafter & _).
  - run.
  - simpl.
    repeat (apply NoDup_cons_2;
            [rewrite ?elem_of_cons, elem_of_nil; intuition discriminate|]).
    apply NoDup_nil_2.
  - reflexivity.
  - repeat constructor; vm_compute; reflexivity.
  - run_faithful.
  - exists st'. rewrite Hrun. split; [reflexivity|].
    assert (readActivePromises (store [] [promiseA; promiseB; promiseDone] [])
            = (Return [promiseA; promiseB],
               store [] [promiseA; promiseB; promiseDone] [])) as E by run.
    rewrite E in Hbefore. injection Hbefore as <-. exact Hafter.
Defined.

Lemma created_promise_is_active_witness :
  exists st' actives,
    appendPromise promiseB (store [] [promiseA] []) = (Return tt, st')
    /\ getPromiseById "abc-2" st' = (Return (Some promiseB), st')
    /\ readActivePromises st' = (Return actives, st')
    /\ promiseB ∈ actives.
Proof.
  apply (created_promise_is_active (store [] [promiseA] []) promiseB "abc-2"
           "2025-01-01T11:00:00.000Z"
           {| Promise.agent := "claude-code"; Promise.session := None |}
           {| Promise.to := "*"; Promise.scope := Some project_scope |}
           {| Promise.type := will_do; Promise.summary := "Add OAuth";
              Promise.description := None; Promise.conditions := None |}
           None None).
  - reflexivity.
  - exists [stringify promiseA]. split; [reflexivity|].
    repeat constructor. vm_compute. eauto.
  - run.
  - run_faithful.
  - run.
Defined.

Lemma getPromiseSummary_counts_witness :
  exists s,
    getPromiseSummary (store [] [promiseA; promiseB; promiseDone] [])
    = (Return s, store [] [promiseA; promiseB; promiseDone] [])
    /\ PromiseSummary.total s = 3
    /\ StatusCounts.active (PromiseSummary.byStatus s)
       + StatusCounts.fulfilled (PromiseSummary.byStatus s)
       + StatusCounts.broken (PromiseSummary.byStatus s)
       + StatusCounts.withdrawn (PromiseSummary.byStatus s)
       + StatusCounts.superseded (PromiseSummary.byStatus s) = 3.
Proof.
  destruct (getPromiseSummary_counts
              (store [] [promiseA; promiseB; promiseDone] [])
              [promiseA; promiseB; promiseDone])
    as (s & actives & Hrun & _ & Htotal & _ & Hsum).
  - run.
  - exists s. split; [exact Hrun|]. split; [exact Htotal|].
    rewrite Hsum. exact Htotal.
Defined.


Lemma addVerdict_invalid_report_writes_nothing_witness :
  @addVerdict json_promise json_report strict_schema_report
    "r-1" "2026-11-02T09:00:00.000Z" "2026-11-02T09:00:01.000Z" "abc-1"
    verdict_fulfilled EmptyString None (store [] [promiseA] [])
  = (Throw (InvalidRecord "report"
             ["/verdict/reasoning must NOT have fewer than 1 characters"]),
     store [] [promiseA] []).
Proof.
  apply (@addVerdict_invalid_report_writes_nothing json_promise json_report
           strict_schema_report (store [] [promiseA] []) [promiseA] promiseA
           "r-1" "2026-11-02T09:00:00.000Z" "2026-11-02T09:00:01.000Z" "abc-1"
           verdict_fulfilled EmptyString None).
  - run.
  - reflexivity.
  - run.
Defined.


Lemma getReportSummary_counts_witness :
  exists s,
    getReportSummary (store [] [] [report1; report2])
    = (Return s, store [] [] [report1; report2])
    /\ ReportSummary.total s = 2
    /\ VerdictCounts.fulfilled (ReportSummary.verdictCounts s)
       + VerdictCounts.partial (ReportSummary.verdictCounts s)
       + VerdictCounts.broken (ReportSummary.verdictCounts s)
       = ReportSummary.withVerdicts s
    /\ ReportSummary.withVerdicts s <= 2.
Proof.
  destruct (getReportSummary_counts (store [] [] [report1; report2])
              [report1; report2])
    as (s & judged & Hrun & _ & Htotal & _ & Hsum & Hle).
  - run.
  - exists s. split; [exact Hrun|]. split; [exact Htotal|].
    split; [exact Hsum|]. rewrite Htotal in Hle. exact Hle.
Defined.

Lemma getAverageConfidenceForPromise_no_report_witness :
  getAverageConfidenceForPromise exact_add exact_div "abc-2"
    (store [] [] [report1; report2])
  = (Return 0%Q, store [] [] [report1; report2]).
Proof.
  apply (getAverageConfidenceForPromise_no_report exact_add exact_div
           (store [] [] [report1; report2]) [report1; report2] "abc-2").
  - run.
  - repeat constructor; discriminate.
Defined.

Lemma commands_update_the_promise_looked_up_witness :
  startsWith (Promise.id promiseA) "abc" = true
  /\ (exists st',
        promiseResolveCommand "2026-11-02T09:00:00.000Z" "abc" broken
          (store [] [promiseDone; promiseA; promiseB] [])
        = (Return (Some (resolved promiseA broken None
                           "2026-11-02T09:00:00.000Z")), st'))
  /\ (exists st',
        promiseWithdrawCommand "2026-11-02T09:00:00.000Z" "abc"
          (store [] [promiseDone; promiseA; promiseB] [])
        = (Return (Some (resolved promiseA withdrawn None
                           "2026-11-02T09:00:00.000Z")), st')).
Proof.
  apply (commands_update_the_promise_looked_up
           (store [] [promiseDone; promiseA; promiseB] [])
           [promiseDone; promiseA; promiseB] "abc" "2026-11-02T09:00:00.000Z"
           broken promiseA).
  - run.
  - reflexivity.
  - apply list_elem_of_further, list_elem_of_here.
Defined.

Lemma commands_exit_on_unknown_reference_witness :
  promiseResolveCommand "2026-11-02T09:00:00.000Z" "xyz" fulfilled
    (store [] [promiseA; promiseB] [])
  = (Throw (ProcessExit 1 "Promise not found: xyz"),
     store [] [promiseA; promiseB] [])
  /\ promiseWithdrawCommand "2026-11-02T09:00:00.000Z" "xyz"
       (store [] [promiseA; promiseB] [])
     = (Throw (ProcessExit 1 "Promise not found: xyz"),
        store [] [promiseA; promiseB] [])
  /\ reportVerdictCommand "r-1" "2026-11-02T08:59:59.000Z"
       "2026-11-02T09:00:00.000Z" "xyz" verdict_partial "half done" None
       (store [] [promiseA; promiseB] [])
     = (Throw (ProcessExit 1 "Promise not found: xyz"),
        store [] [promiseA; promiseB] []).
Proof.
  apply (commands_exit_on_unknown_reference (store [] [promiseA; promiseB] [])
           [promiseA; promiseB] "xyz" "2026-11-02T09:00:00.000Z" "r-1"
           "2026-11-02T08:59:59.000Z" "half done" fulfilled verdict_partial None).
  - run.
  - repeat constructor.
  - apply list_elem_of_here.
Defined.

Lemma full_length_reference_is_exact_witness :
  findByRef "abc-2" [promiseA; promiseB; promiseDone]
  = List.find (hasId "abc-2") [promiseA; promiseB; promiseDone].
Proof.
  apply (full_length_reference_is_exact "abc-2"
           [promiseA; promiseB; promiseDone]).
  repeat constructor.
Defined.

Lemma readByFile_contains_scanned_entries_witness :
  exists found,
    readByFile "a.ts" (store [entry1; entry2; entry3] [] [])
    = (Return found, store [entry1; entry2; entry3] [] [])
    /\ found `sublist_of` [entry1; entry2; entry3]
    /\ (forall e, e ∈ scanned "a.ts" [entry1; entry2; entry3] -> e ∈ found).
Proof.
  destruct (readByFile_contains_scanned_entries
              (store [entry1; entry2; entry3] [] []) [entry1; entry2; entry3]
              "a.ts")
    as (found & Hrun & _ & Hsub & Hscan).
  - run.
  - exists found. repeat split; assumption.
Defined.

Lemma detectConflict_after_other_intent_witness :
  exists prior,
    detectConflict "a.ts" "add feature" ([entry1] ++ [entry2])
    = Conflict prior (Entry.intent (Entry.reasoning prior))
    /\ prior ∈ [entry1] ++ [entry2]
    /\ touches "a.ts" prior = true
    /\ Entry.intent (Entry.reasoning prior) <> "add feature".
Proof.
  apply (detectConflict_after_other_intent "a.ts" "add feature" [entry1] entry2).
  - reflexivity.
  - discriminate.
Defined.
